(** * metcd: the HTTP key-value API and the Raft node manager

    The first part embeds [httpKVAPI.ServeHTTP] of [httpapi.go]: the handler
    is a Go method that reads a request, talks to its three collaborators
    (the key-value store, the Raft node and the configuration-change
    channel) and fills in a [http.ResponseWriter].  It is written here in a
    small state monad over the connection (collaborators and response
    writer), with an outcome for a run-time panic.

    The second part models the Raft node manager of package [raftnode],
    which the handler and the tests of [metcd_test.go] use.

    All definitions come first; the properties follow, the handler's and
    then the node manager's. *)

From Stdlib Require Import ZArith NArith Ascii String DecimalString DecimalPos DecimalN.
From stdpp Require Import gmap strings list fin_maps sorting.

Open Scope string_scope.
Open Scope list_scope.

(** ** Go values *)

(** The text of a Go [error] value. *)
Definition Err := string.

(** [strconv.FormatUint(n, 10)]. *)
Definition FormatUint (n : N) : string := NilZero.string_of_uint (N.to_uint n).

(** [fmt.Sprintf("%v", b)] for a [bool]. *)
Definition Sprintf_bool (b : bool) : string := if b then "true" else "false".

(** [s[1:]]: slicing a string from index 1 panics when the string is empty. *)
Definition slice_from_1 (s : string) : option string :=
  match s with
  | EmptyString => None
  | String _ rest => Some rest
  end.

(** ** net/http *)

Module http.

Definition MethodGet := "GET".
Definition MethodHead := "HEAD".
Definition MethodPost := "POST".
Definition MethodPut := "PUT".
Definition MethodDelete := "DELETE".

Definition StatusOK : nat := 200.
Definition StatusNoContent : nat := 204.
Definition StatusBadRequest : nat := 400.
Definition StatusNotFound : nat := 404.
Definition StatusMethodNotAllowed : nat := 405.

(** The part of [http.Request] the handler reads.  [Body] is what
    [io.ReadAll(r.Body)] returns: the bytes of the body, or an error. *)
Record Request := {
  Method : string;
  RequestURI : string;
  Body : string + Err
}.

(** [textproto.CanonicalMIMEHeaderKey] on header names made of letters,
    digits and hyphens: the first letter and every letter after a hyphen in
    upper case, the others in lower case. *)
Definition upper (c : ascii) : ascii :=
  let n := nat_of_ascii c in
  if (97 <=? n)%nat && (n <=? 122)%nat then ascii_of_nat (n - 32) else c.

Definition lower (c : ascii) : ascii :=
  let n := nat_of_ascii c in
  if (65 <=? n)%nat && (n <=? 90)%nat then ascii_of_nat (n + 32) else c.

Fixpoint canonical (up : bool) (s : string) : string :=
  match s with
  | EmptyString => EmptyString
  | String c rest =>
      String (if up then upper c else lower c)
             (canonical (Ascii.eqb c "-"%char) rest)
  end.

Definition CanonicalHeaderKey (s : string) : string := canonical true s.

(** [http.Header] is a [map[string][]string] under canonical keys. *)
Definition Header_Add (k v : string) (h : gmap string (list string)) :
    gmap string (list string) :=
  <[CanonicalHeaderKey k := default [] (h !! CanonicalHeaderKey k) ++ [v]]> h.

Definition Header_Set (k v : string) (h : gmap string (list string)) :
    gmap string (list string) :=
  <[CanonicalHeaderKey k := [v]]> h.

Definition Header_Values (k : string) (h : gmap string (list string)) : list string :=
  default [] (h !! CanonicalHeaderKey k).

(** The state of a [http.ResponseWriter]: the header map, the status code
    once it has been written, and the bytes of the body. *)
Record ResponseWriter := {
  header : gmap string (list string);
  status : option nat;
  body : string
}.

Definition newResponse : ResponseWriter :=
  {| header := ∅; status := None; body := "" |}.

(** [w.WriteHeader(code)]: only the first call sets the status. *)
Definition WriteHeader (code : nat) (w : ResponseWriter) : ResponseWriter :=
  match status w with
  | Some _ => w
  | None => {| header := header w; status := Some code; body := body w |}
  end.

(** [w.Write(b)]: writes status 200 first when no status was written. *)
Definition Write (b : string) (w : ResponseWriter) : ResponseWriter :=
  let w' := WriteHeader StatusOK w in
  {| header := header w'; status := status w'; body := body w' +:+ b |}.

Definition with_header (f : gmap string (list string) → gmap string (list string))
    (w : ResponseWriter) : ResponseWriter :=
  {| header := f (header w); status := status w; body := body w |}.

(** [http.Error(w, msg, code)]: a plain-text reply, the message followed by
    a newline. *)
Definition Error (msg : string) (code : nat) (w : ResponseWriter) : ResponseWriter :=
  let w1 := with_header (Header_Set "Content-Type" "text/plain; charset=utf-8") w in
  let w2 := with_header (Header_Set "X-Content-Type-Options" "nosniff") w1 in
  Write (msg +:+ String "010"%char "") (WriteHeader code w2).

End http.

(** ** raftpb *)

Inductive ConfChangeType := ConfChangeAddNode | ConfChangeRemoveNode.

(** [raftpb.ConfChange], the fields the handler fills in.  A [uint64] node
    ID is an [N]; the [Context] byte slice is a string, empty when the field
    is left unset. *)
Record ConfChange := {
  cc_Type : ConfChangeType;
  cc_NodeID : N;
  cc_Context : string
}.

(** ** The collaborators of the handler *)

(** A call the handler makes on one of its collaborators; the connection
    keeps them in program order. *)
Inductive Call :=
| CallReadAll
| CallPropose (k v : string)
| CallLinearizableReadNotify
| CallLookup (k : string)
| CallSend (cc : ConfChange)
| CallID
| CallIsLeader
| CallBodyClose.

(** Modelled from the spec: the collaborators behind [h.store], [h.rc] and
    [h.confChangeC], whose code ([kvstore] and package [raftnode]) is not
    among the sources, together with the process log.

    The key-value store is an in-memory map from keys to values, [kvStore],
    written only when a proposal commits; [proposed] holds the key-value
    pairs handed to the Proposal Pipe by [Propose] and not yet committed,
    oldest first.

    Of the Raft node the handler sees its numeric ID, its leadership flag
    and the answer of [LinearizableReadNotify] to the request at hand
    ([None] is Go's [nil]); [rcConfState] is the membership the node has
    applied, which only the node manager changes.  [confChangeC] holds the
    values sent on the configuration-change channel, oldest first. *)
Record World := {
  kvStore : gmap string string;
  proposed : list (string * string);
  confChangeC : list ConfChange;
  rcID : N;
  rcIsLeader : bool;
  rcReadNotify : option Err;
  rcConfState : gset N;
  logged : list string;
  calls : list Call
}.

Definition record_call (c : Call) (σ : World) : World :=
  {| kvStore := kvStore σ; proposed := proposed σ; confChangeC := confChangeC σ;
     rcID := rcID σ; rcIsLeader := rcIsLeader σ; rcReadNotify := rcReadNotify σ;
     rcConfState := rcConfState σ; logged := logged σ;
     calls := calls σ ++ [c] |}.

Definition record_log (line : string) (σ : World) : World :=
  {| kvStore := kvStore σ; proposed := proposed σ; confChangeC := confChangeC σ;
     rcID := rcID σ; rcIsLeader := rcIsLeader σ; rcReadNotify := rcReadNotify σ;
     rcConfState := rcConfState σ; logged := logged σ ++ [line];
     calls := calls σ |}.

Definition enqueue_proposal (k v : string) (σ : World) : World :=
  {| kvStore := kvStore σ; proposed := proposed σ ++ [(k, v)];
     confChangeC := confChangeC σ;
     rcID := rcID σ; rcIsLeader := rcIsLeader σ; rcReadNotify := rcReadNotify σ;
     rcConfState := rcConfState σ; logged := logged σ; calls := calls σ |}.

Definition enqueue_confChange (cc : ConfChange) (σ : World) : World :=
  {| kvStore := kvStore σ; proposed := proposed σ;
     confChangeC := confChangeC σ ++ [cc];
     rcID := rcID σ; rcIsLeader := rcIsLeader σ; rcReadNotify := rcReadNotify σ;
     rcConfState := rcConfState σ; logged := logged σ; calls := calls σ |}.

Definition set_readNotify (e : option Err) (σ : World) : World :=
  {| kvStore := kvStore σ; proposed := proposed σ; confChangeC := confChangeC σ;
     rcID := rcID σ; rcIsLeader := rcIsLeader σ; rcReadNotify := e;
     rcConfState := rcConfState σ; logged := logged σ; calls := calls σ |}.

(** Modelled from the spec: the store applying a committed proposal (the
    consumer side of the Commit Pipeline in the absent [kvstore]): the
    oldest pending pair is written into the map. *)
Definition commit_one (σ : World) : World :=
  match proposed σ with
  | [] => σ
  | (k, v) :: rest =>
      {| kvStore := <[k := v]> (kvStore σ); proposed := rest;
         confChangeC := confChangeC σ;
         rcID := rcID σ; rcIsLeader := rcIsLeader σ; rcReadNotify := rcReadNotify σ;
         rcConfState := rcConfState σ; logged := logged σ; calls := calls σ |}
  end.

(** [n] commits, in the order the pairs were proposed. *)
Fixpoint commit_n (n : nat) (σ : World) : World :=
  match n with
  | O => σ
  | S n' => commit_n n' (commit_one σ)
  end.

(** ** The handler monad *)

(** A connection: the collaborators and the response writer. *)
Record Conn := { world : World; resp : http.ResponseWriter }.

(** A handler run either returns or panics; both leave a connection. *)
Inductive Outcome (A : Type) :=
| Returned (a : A) (c : Conn)
| Panicked (msg : string) (c : Conn).
Arguments Returned {A} a c.
Arguments Panicked {A} msg c.

Definition conn_of {A} (o : Outcome A) : Conn :=
  match o with Returned _ c => c | Panicked _ c => c end.

Definition returned {A} (o : Outcome A) : bool :=
  match o with Returned _ _ => true | Panicked _ _ => false end.

Definition Handler (A : Type) : Type := Conn → Outcome A.

Definition Handler_ret {A} (a : A) : Handler A := λ c, Returned a c.

Definition Handler_bind {A B} (k : A → Handler B) (m : Handler A) : Handler B :=
  λ c, match m c with
       | Returned a c' => k a c'
       | Panicked msg c' => Panicked msg c'
       end.

#[global] Instance Handler_MRet : MRet Handler := @Handler_ret.
#[global] Instance Handler_MBind : MBind Handler := @Handler_bind.

Definition panic {A} (msg : string) : Handler A := λ c, Panicked msg c.

Definition on_world (f : World → World) : Handler unit :=
  λ c, Returned tt {| world := f (world c); resp := resp c |}.

Definition on_resp (f : http.ResponseWriter → http.ResponseWriter) : Handler unit :=
  λ c, Returned tt {| world := world c; resp := f (resp c) |}.

Definition read_world {A} (f : World → A) : Handler A :=
  λ c, Returned (f (world c)) c.

(** [defer d; m]: the deferred call runs when [m] returns and when it
    panics. *)
Definition defer {A} (d : Handler unit) (m : Handler A) : Handler A :=
  λ c, match m c with
       | Returned a c' => Returned a (conn_of (d c'))
       | Panicked msg c' => Panicked msg (conn_of (d c'))
       end.

(** The calls of the handler on its collaborators. *)
Definition ReadAll (r : http.Request) : Handler (string + Err) :=
  on_world (record_call CallReadAll) ;; mret (http.Body r).

Definition Body_Close : Handler unit := on_world (record_call CallBodyClose).

Definition log_Printf (line : string) : Handler unit := on_world (record_log line).

Definition store_Propose (k v : string) : Handler unit :=
  on_world (record_call (CallPropose k v)) ;; on_world (enqueue_proposal k v).

Definition store_Lookup (k : string) : Handler (option string) :=
  on_world (record_call (CallLookup k)) ;; read_world (λ σ, kvStore σ !! k).

Definition rc_LinearizableReadNotify : Handler (option Err) :=
  on_world (record_call CallLinearizableReadNotify) ;; read_world rcReadNotify.

Definition rc_ID : Handler N := on_world (record_call CallID) ;; read_world rcID.

Definition rc_IsLeader : Handler bool :=
  on_world (record_call CallIsLeader) ;; read_world rcIsLeader.

Definition send_confChange (cc : ConfChange) : Handler unit :=
  on_world (record_call (CallSend cc)) ;; on_world (enqueue_confChange cc).

Definition newline : string := String "010"%char "".

(** A step of the collaborators: a request with the answer the node gives
    to its read confirmation, or a commit. *)
Inductive Step :=
| Serve (r : http.Request) (readErr : option Err)
| Commit.

(** ** httpKVAPI.ServeHTTP *)

Section ServeHTTP.

(** [strconv.ParseUint(s, 0, 64)] of the Go library: the number, or an
    error.  The handler only tells the two apart, so what follows holds for
    every such function. *)
Variable ParseUint : string → N + Err.

(** case http.MethodPut *)
Definition servePut (key : string) (r : http.Request) : Handler unit :=
  v ← ReadAll r;
  match v with
  | inr err =>
      log_Printf ("Failed to read on PUT (" +:+ err +:+ ")" +:+ newline) ;;
      on_resp (http.Error "Failed on PUT" http.StatusBadRequest)
  | inl v =>
      store_Propose key v ;;
      on_resp (http.WriteHeader http.StatusNoContent)
  end.

(** case http.MethodGet *)
Definition serveGet (key : string) : Handler unit :=
  err ← rc_LinearizableReadNotify;
  match err with
  | Some err =>
      log_Printf ("Failed to read on GET (" +:+ err +:+ ")" +:+ newline) ;;
      on_resp (http.Error "Failed on GET" http.StatusBadRequest)
  | None =>
      found ← store_Lookup key;
      match found with
      | Some v => on_resp (http.Write v)
      | None => on_resp (http.Error "Failed to GET" http.StatusNotFound)
      end
  end.

(** case http.MethodPost *)
Definition servePost (key : string) (r : http.Request) : Handler unit :=
  url ← ReadAll r;
  match url with
  | inr err =>
      log_Printf ("Failed to read on POST (" +:+ err +:+ ")" +:+ newline) ;;
      on_resp (http.Error "Failed on POST" http.StatusBadRequest)
  | inl url =>
      match slice_from_1 key with
      | None => panic "slice bounds out of range [1:0]"
      | Some id =>
          match ParseUint id with
          | inr err =>
              log_Printf ("Failed to convert ID for conf change (" +:+ err +:+ ")" +:+ newline) ;;
              on_resp (http.Error "Failed on POST" http.StatusBadRequest)
          | inl nodeID =>
              send_confChange {| cc_Type := ConfChangeAddNode;
                                 cc_NodeID := nodeID;
                                 cc_Context := url |} ;;
              on_resp (http.WriteHeader http.StatusNoContent)
          end
      end
  end.

(** case http.MethodDelete *)
Definition serveDelete (key : string) : Handler unit :=
  match slice_from_1 key with
  | None => panic "slice bounds out of range [1:0]"
  | Some id =>
      match ParseUint id with
      | inr err =>
          log_Printf ("Failed to convert ID for conf change (" +:+ err +:+ ")" +:+ newline) ;;
          on_resp (http.Error "Failed on DELETE" http.StatusBadRequest)
      | inl nodeID =>
          send_confChange {| cc_Type := ConfChangeRemoveNode;
                             cc_NodeID := nodeID;
                             cc_Context := "" |} ;;
          on_resp (http.WriteHeader http.StatusNoContent)
      end
  end.

(** case http.MethodHead *)
Definition serveHead : Handler unit :=
  id ← rc_ID;
  on_resp (http.with_header (http.Header_Add "X-ID" (FormatUint id))) ;;
  leader ← rc_IsLeader;
  on_resp (http.with_header (http.Header_Add "X-IS-Leader" (Sprintf_bool leader))) ;;
  on_resp (http.WriteHeader http.StatusOK).

(** default *)
Definition serveDefault : Handler unit :=
  on_resp (http.with_header (http.Header_Set "Allow" http.MethodPut)) ;;
  on_resp (http.with_header (http.Header_Add "Allow" http.MethodGet)) ;;
  on_resp (http.with_header (http.Header_Add "Allow" http.MethodPost)) ;;
  on_resp (http.with_header (http.Header_Add "Allow" http.MethodDelete)) ;;
  on_resp (http.Error "Method not allowed" http.StatusMethodNotAllowed).

Definition ServeHTTP (r : http.Request) : Handler unit :=
  let key := http.RequestURI r in
  defer Body_Close
    (if String.eqb (http.Method r) http.MethodPut then servePut key r
     else if String.eqb (http.Method r) http.MethodGet then serveGet key
     else if String.eqb (http.Method r) http.MethodPost then servePost key r
     else if String.eqb (http.Method r) http.MethodDelete then serveDelete key
     else if String.eqb (http.Method r) http.MethodHead then serveHead
     else serveDefault).

(** A fresh response writer on the collaborators [σ]. *)
Definition connect (σ : World) : Conn := {| world := σ; resp := http.newResponse |}.

(** One request served on the collaborators [σ]. *)
Definition serve (r : http.Request) (σ : World) : Outcome unit := ServeHTTP r (connect σ).

(** What happens to the collaborators over time: a request is served, the
    node answering its read confirmation with [readErr], or the oldest
    pending proposal commits. *)
Definition world_step (σ : World) (s : Step) : World :=
  match s with
  | Serve r readErr => world (conn_of (serve r (set_readNotify readErr σ)))
  | Commit => commit_one σ
  end.

Definition world_run (steps : list Step) (σ : World) : World := foldl world_step σ steps.

End ServeHTTP.

(** ** strconv.ParseUint

    The handler is proved correct for every parser; the examples run it
    with this model of the Go library's [ParseUint(s, 0, 64)]: base prefix
    [0b], [0o], [0x] or a leading [0] for octal, underscores only as digit
    separators, and a range error past [2^64 - 1]. *)

Module strconv.

Definition code (c : ascii) : N := N_of_ascii c.

(** [lower(c) = c | ('x' - 'X')] *)
Definition lower (c : ascii) : N := N.lor (code c) 32.

Definition maxUint64 : N := 2 ^ 64 - 1.

Definition quote : string := String "034"%char "".

Definition syntaxError (s : string) : Err :=
  "strconv.ParseUint: parsing " +:+ quote +:+ s +:+ quote +:+ ": invalid syntax".

Definition rangeError (s : string) : Err :=
  "strconv.ParseUint: parsing " +:+ quote +:+ s +:+ quote +:+ ": value out of range".

(** The base and the digits left after the prefix, for [base == 0]. *)
Definition split_prefix (s : string) : N * string :=
  match s with
  | String "0"%char rest =>
      match rest with
      | String c (String _ _ as digits) =>
          if lower c =? code "b" then (2, digits)
          else if lower c =? code "o" then (8, digits)
          else if lower c =? code "x" then (16, digits)
          else (8, rest)
      | _ => (8, rest)
      end
  | _ => (10, s)
  end%N.

(** The loop over the digits: [n] is the number read so far and
    [underscores] whether an underscore was skipped.  The result is the
    number with that flag, or [inr true] for a syntax error and [inr false]
    for a range error. *)
Fixpoint digits_loop (base : N) (s : string) (n : N) (underscores : bool) :
    (N * bool) + bool :=
  match s with
  | EmptyString => inl (n, underscores)
  | String c rest =>
      if Ascii.eqb c "_" then digits_loop base rest n true
      else
        let d :=
          if (code "0" <=? code c) && (code c <=? code "9") then Some (code c - code "0")
          else if (code "a" <=? lower c) && (lower c <=? code "z")
               then Some (lower c - code "a" + 10)
               else None in
        match d with
        | None => inr true
        | Some d =>
            if base <=? d then inr true
            else if maxUint64 / base + 1 <=? n then inr false
            else
              let n := n * base in
              let n1 := (n + d) mod 2 ^ 64 in
              if (n1 <? n) || (maxUint64 <? n1) then inr false
              else digits_loop base rest n1 underscores
        end
  end%N.

(** [underscoreOK]: underscores sit only between digits, the base prefix
    counting as a digit.  [saw] is the last character class seen:
    ["^"] beginning, ["0"] digit, ["_"] underscore, ["!"] anything else. *)
Fixpoint underscore_scan (hex : bool) (s : string) (saw : ascii) : bool :=
  match s with
  | EmptyString => negb (Ascii.eqb saw "_")
  | String c rest =>
      if ((code "0" <=? code c) && (code c <=? code "9"))
         || (hex && (code "a" <=? lower c) && (lower c <=? code "f"))
      then underscore_scan hex rest "0"
      else if Ascii.eqb c "_"
      then (if Ascii.eqb saw "0" then underscore_scan hex rest "_" else false)
      else if Ascii.eqb saw "_" then false
      else underscore_scan hex rest "!"
  end%N.

Definition underscoreOK (s : string) : bool :=
  let s :=
    match s with
    | String c rest => if Ascii.eqb c "-" || Ascii.eqb c "+" then rest else s
    | _ => s
    end in
  match s with
  | String "0"%char (String c rest) =>
      if (lower c =? code "b") || (lower c =? code "o") || (lower c =? code "x")
      then underscore_scan (lower c =? code "x") rest "0"
      else underscore_scan false s "^"
  | _ => underscore_scan false s "^"
  end%N.

Definition ParseUint (s : string) : N + Err :=
  match s with
  | EmptyString => inr (syntaxError s)
  | _ =>
      let '(base, digits) := split_prefix s in
      match digits_loop base digits 0 false with
      | inr true => inr (syntaxError s)
      | inr false => inr (rangeError s)
      | inl (n, underscores) =>
          if underscores && negb (underscoreOK s) then inr (syntaxError s)
          else inl n
      end
  end.

End strconv.


(** ** Predicates on requests and collaborators *)

(** The collaborators of a node that has served nothing yet. *)
Definition newWorld (id : N) (leader : bool) : World :=
  {| kvStore := ∅; proposed := []; confChangeC := []; rcID := id;
     rcIsLeader := leader; rcReadNotify := None; rcConfState := ∅;
     logged := []; calls := [] |}.

(** The step is a PUT of key [k]. *)
Definition sets_key (k : string) (s : Step) : bool :=
  match s with
  | Serve r _ =>
      String.eqb (http.Method r) http.MethodPut && String.eqb (http.RequestURI r) k
  | Commit => false
  end.

(** Key [k] is neither in the map nor in a pending proposal. *)
Definition unset (k : string) (σ : World) : Prop :=
  kvStore σ !! k = None ∧ ∀ v, (k, v) ∉ proposed σ.

(** The collaborators' state proper: everything but the process log and the
    record of calls. *)
Definition same_state (σ σ' : World) : Prop :=
  kvStore σ' = kvStore σ ∧ proposed σ' = proposed σ ∧
  confChangeC σ' = confChangeC σ ∧ rcID σ' = rcID σ ∧
  rcIsLeader σ' = rcIsLeader σ ∧ rcReadNotify σ' = rcReadNotify σ ∧
  rcConfState σ' = rcConfState σ.

(** The calls a run added to the record of calls. *)
Definition made_calls (σ : World) {A} (o : Outcome A) (cs : list Call) : Prop :=
  calls (world (conn_of o)) = calls σ ++ cs.

(** A request the handler rejects before it touches its collaborators: a
    PUT whose body cannot be read, or a POST or DELETE whose node ID, the
    request URI after its first character, does not parse. *)
Definition malformed (ParseUint : string → N + Err) (r : http.Request) : Prop :=
  (http.Method r = http.MethodPut ∧ ∃ err, http.Body r = inr err) ∨
  ((http.Method r = http.MethodPost ∨ http.Method r = http.MethodDelete) ∧
   ∃ c id err, http.RequestURI r = String c id ∧ ParseUint id = inr err).

(** * The Raft node manager

    Package [raftnode] (the Proposal Pipe, the driving loop of the node
    manager, the Commit Pipeline with its snapshot policy, and the
    completion signal) is not among the sources, which only hold the tests
    that drive it.  It is modelled here from sections 3 to 6 of the
    specification, from the point of view of one node whose engine gets
    its entries committed (the only voter of its cluster, or the leader of
    followers that answer): what the consensus engine is handed, it appends
    at the next index and reports committed at the next readiness.  Besides
    the proposals the log holds configuration-change entries, one for every
    peer the cluster is started with and one for every change of the
    membership later on; they are applied by the Membership Controller and
    count as applied entries, but they carry no payload for the
    application.

    The node is a transition system.  The application and the loop of the
    node manager take turns in any order; an event that cannot happen in a
    state (a send on a full pipe, a readiness with nothing to report)
    leaves the state as it is. *)

Module raftnode.

#[local] Open Scope nat_scope.

(** Modelled from the spec: the two kinds of Log Entry, application data
    and mutation of the membership. *)
Inductive EntryType := EntryNormal | EntryConfChange.

(** Modelled from the spec: a Log Entry, its index, its kind and its
    payload (the proposed data, or the peer address of a configuration
    change). *)
Record Entry := { Index : nat; Kind : EntryType; Payload : string }.

(** Modelled from the spec: a Commit Batch, the committed entries of one
    readiness, in order, and the completion handle [ApplyDoneC], [true]
    once the application has closed it. *)
Record Commit := { Ents : list Entry; ApplyDoneC : bool }.

(** The payloads of a batch, [c.Data] of the tests. *)
Definition Data (c : Commit) : list string := Payload <$> Ents c.

(** Modelled from the spec: the state of the node manager with its
    Proposal Pipe, Commit Pipeline and completion signal. *)
Record RaftNode := {
  (** configuration: snapshot trigger count and catch-up retention *)
  DefaultSnapshotCount : nat;
  SnapshotCatchUpEntriesN : nat;
  (** Proposal Pipe: payloads waiting in the conduit, oldest first, the
      number of slots of the conduit, and the close flag *)
  ProposeC : list string;
  pipeCap : nat;
  pipeClosed : bool;
  (** history: the payloads sent on the conduit, and those the loop has
      accepted from it, both in order *)
  submitted : list string;
  accepted : list string;
  (** consensus engine: entries proposed and not yet reported *)
  unstable : list Entry;
  (** Durable Log Store and Snapshotter: the entries kept, oldest first,
      and the indices at which a snapshot was written *)
  wal : list Entry;
  snapshots : list nat;
  (** cursors *)
  appliedIndex : nat;
  snapshotIndex : nat;
  (** the loop waits at the backpressure gate *)
  awaitingApply : bool;
  (** Commit Pipeline: the batches handed to the application, oldest first *)
  commitC : list Commit;
  commitClosed : bool;
  (** completion signal: what was notified, and how often it was closed *)
  errorC : list (option Err);
  errorClosed : nat;
  stopped : bool
}.

(** Modelled from the spec: a node at start-up, nothing proposed. *)
Definition NewRaftNode (snapCount catchUp cap : nat) : RaftNode :=
  {| DefaultSnapshotCount := snapCount; SnapshotCatchUpEntriesN := catchUp;
     ProposeC := []; pipeCap := cap; pipeClosed := false;
     submitted := []; accepted := [];
     unstable := []; wal := []; snapshots := [];
     appliedIndex := 0; snapshotIndex := 0; awaitingApply := false;
     commitC := []; commitClosed := false;
     errorC := []; errorClosed := 0; stopped := false |}.

(** The index of the newest entry the engine has assigned. *)
Definition lastIndex (n : RaftNode) : nat := appliedIndex n + length (unstable n).

(** All payloads delivered to the application so far, in order. *)
Definition delivered (n : RaftNode) : list string := concat (Data <$> commitC n).

(** The indices of the delivered entries, batch after batch. *)
Definition delivered_indices (n : RaftNode) : list nat :=
  concat ((λ c, Index <$> Ents c) <$> commitC n).

(** The number of entries applied since the last snapshot. *)
Definition snapshotCount (n : RaftNode) : nat := appliedIndex n - snapshotIndex n.

(** *** The application's side *)

Inductive SubmitResult := Sent | Blocked | Ignored.

(** Modelled from the spec: a submission on the Proposal Pipe.  It is
    ignored once the pipe is closed, goes into the conduit while that has a
    free slot, and is otherwise not yet possible. *)
Definition submit (p : string) (n : RaftNode) : SubmitResult * RaftNode :=
  if pipeClosed n then (Ignored, n)
  else if length (ProposeC n) <? pipeCap n then
    (Sent,
     {| DefaultSnapshotCount := DefaultSnapshotCount n;
        SnapshotCatchUpEntriesN := SnapshotCatchUpEntriesN n;
        ProposeC := ProposeC n ++ [p]; pipeCap := pipeCap n;
        pipeClosed := pipeClosed n;
        submitted := submitted n ++ [p]; accepted := accepted n;
        unstable := unstable n; wal := wal n; snapshots := snapshots n;
        appliedIndex := appliedIndex n; snapshotIndex := snapshotIndex n;
        awaitingApply := awaitingApply n;
        commitC := commitC n; commitClosed := commitClosed n;
        errorC := errorC n; errorClosed := errorClosed n; stopped := stopped n |})
  else (Blocked, n).

(** Modelled from the spec: [ProposePipe.Close].  It sets the close flag;
    the conduit itself stays as it is. *)
Definition Close (n : RaftNode) : RaftNode :=
  {| DefaultSnapshotCount := DefaultSnapshotCount n;
     SnapshotCatchUpEntriesN := SnapshotCatchUpEntriesN n;
     ProposeC := ProposeC n; pipeCap := pipeCap n;
     pipeClosed := true;
     submitted := submitted n; accepted := accepted n;
     unstable := unstable n; wal := wal n; snapshots := snapshots n;
     appliedIndex := appliedIndex n; snapshotIndex := snapshotIndex n;
     awaitingApply := awaitingApply n;
     commitC := commitC n; commitClosed := commitClosed n;
     errorC := errorC n; errorClosed := errorClosed n; stopped := stopped n |}.

Definition close_handle (c : Commit) : Commit :=
  {| Ents := Ents c; ApplyDoneC := true |}.

(** Modelled from the spec: the application closes the completion handle
    of the [i]-th batch it received (counting from 0). *)
Definition applyDone (i : nat) (n : RaftNode) : RaftNode :=
  {| DefaultSnapshotCount := DefaultSnapshotCount n;
     SnapshotCatchUpEntriesN := SnapshotCatchUpEntriesN n;
     ProposeC := ProposeC n; pipeCap := pipeCap n;
     pipeClosed := pipeClosed n;
     submitted := submitted n; accepted := accepted n;
     unstable := unstable n; wal := wal n; snapshots := snapshots n;
     appliedIndex := appliedIndex n; snapshotIndex := snapshotIndex n;
     awaitingApply := awaitingApply n;
     commitC := alter close_handle i (commitC n); commitClosed := commitClosed n;
     errorC := errorC n; errorClosed := errorClosed n; stopped := stopped n |}.

(** *** The loop of the node manager *)

(** Modelled from the spec: the loop accepts the oldest payload from the
    pipe and hands it to the engine, which appends it at the next index.
    After [Close] the loop accepts no further proposal. *)
Definition takeProposal (n : RaftNode) : RaftNode :=
  match ProposeC n with
  | p :: rest =>
      if pipeClosed n || stopped n then n
      else
        {| DefaultSnapshotCount := DefaultSnapshotCount n;
           SnapshotCatchUpEntriesN := SnapshotCatchUpEntriesN n;
           ProposeC := rest; pipeCap := pipeCap n;
           pipeClosed := pipeClosed n;
           submitted := submitted n; accepted := accepted n ++ [p];
           unstable := unstable n ++
             [ {| Index := S (lastIndex n); Kind := EntryNormal; Payload := p |} ];
           wal := wal n; snapshots := snapshots n;
           appliedIndex := appliedIndex n; snapshotIndex := snapshotIndex n;
           awaitingApply := awaitingApply n;
           commitC := commitC n; commitClosed := commitClosed n;
           errorC := errorC n; errorClosed := errorClosed n; stopped := stopped n |}
  | [] => n
  end.

(** Modelled from the spec: one readiness of the engine.  The new entries
    are persisted, published as one Commit Batch with an open completion
    handle, and counted as applied; when the count since the last snapshot
    has reached the trigger count the loop goes to wait at the gate, where
    it handles no further readiness. *)
Definition ready (n : RaftNode) : RaftNode :=
  match unstable n with
  | [] => n
  | _ :: _ =>
      if stopped n || awaitingApply n then n
      else
        let applied := lastIndex n in
        {| DefaultSnapshotCount := DefaultSnapshotCount n;
           SnapshotCatchUpEntriesN := SnapshotCatchUpEntriesN n;
           ProposeC := ProposeC n; pipeCap := pipeCap n;
           pipeClosed := pipeClosed n;
           submitted := submitted n; accepted := accepted n;
           unstable := [];
           wal := wal n ++ unstable n; snapshots := snapshots n;
           appliedIndex := applied; snapshotIndex := snapshotIndex n;
           awaitingApply := DefaultSnapshotCount n <=? applied - snapshotIndex n;
           commitC := commitC n ++ [ {| Ents := unstable n; ApplyDoneC := false |} ];
           commitClosed := commitClosed n;
           errorC := errorC n; errorClosed := errorClosed n; stopped := stopped n |}
  end.

(** Modelled from the spec: the configuration changes a cluster is started
    with, one add-node for every peer, the nodes being numbered from 1 (the
    set of voting members changes only when a committed configuration-change
    entry is applied, so the peers of the start are entries of the log). *)
Definition bootstrap (peers : list string) : list ConfChange :=
  imap (λ i url, {| cc_Type := ConfChangeAddNode; cc_NodeID := N.of_nat (S i);
                    cc_Context := url |}) peers.

(** The configuration-change entries of one readiness, from index [next]
    on. *)
Fixpoint confChangeEntries (next : nat) (ccs : list ConfChange) : list Entry :=
  match ccs with
  | [] => []
  | cc :: rest =>
      {| Index := next; Kind := EntryConfChange; Payload := cc_Context cc |}
      :: confChangeEntries (S next) rest
  end.

(** Modelled from the spec: a readiness of the engine that carries
    committed configuration changes (those of the peers the cluster is
    started with, or of requests on the configuration-change channel) while
    no proposal is pending.  The entries are persisted, handed to the
    Membership Controller and counted as applied; there being no normal
    entry, no Commit Batch is published.  The gate is as in [ready]. *)
Definition readyConfChange (ccs : list ConfChange) (n : RaftNode) : RaftNode :=
  match ccs with
  | [] => n
  | _ :: _ =>
      if stopped n || awaitingApply n || negb (bool_decide (unstable n = [])) then n
      else
        let applied := appliedIndex n + length ccs in
        {| DefaultSnapshotCount := DefaultSnapshotCount n;
           SnapshotCatchUpEntriesN := SnapshotCatchUpEntriesN n;
           ProposeC := ProposeC n; pipeCap := pipeCap n;
           pipeClosed := pipeClosed n;
           submitted := submitted n; accepted := accepted n;
           unstable := unstable n;
           wal := wal n ++ confChangeEntries (S (appliedIndex n)) ccs;
           snapshots := snapshots n;
           appliedIndex := applied; snapshotIndex := snapshotIndex n;
           awaitingApply := DefaultSnapshotCount n <=? applied - snapshotIndex n;
           commitC := commitC n; commitClosed := commitClosed n;
           errorC := errorC n; errorClosed := errorClosed n; stopped := stopped n |}
  end.

(** The completion handle of the most recent batch has signalled done (a
    node that has published no batch has nothing to wait for). *)
Definition applyDoneSignalled (n : RaftNode) : bool :=
  match last (commitC n) with
  | Some c => ApplyDoneC c
  | None => true
  end.

(** Compaction of the log up to [compactIndex]: later entries are kept. *)
Definition Compact (compactIndex : nat) (log : list Entry) : list Entry :=
  filter (λ e, compactIndex < Index e) log.

(** Modelled from the spec: the gate opens.  A snapshot of the applied
    state is written, the log is compacted up to the snapshot index minus
    the catch-up retention, and the Snapshot Index advances. *)
Definition triggerSnapshot (n : RaftNode) : RaftNode :=
  if awaitingApply n && applyDoneSignalled n && negb (stopped n) then
    {| DefaultSnapshotCount := DefaultSnapshotCount n;
       SnapshotCatchUpEntriesN := SnapshotCatchUpEntriesN n;
       ProposeC := ProposeC n; pipeCap := pipeCap n;
       pipeClosed := pipeClosed n;
       submitted := submitted n; accepted := accepted n;
       unstable := unstable n;
       wal := Compact (appliedIndex n - SnapshotCatchUpEntriesN n) (wal n);
       snapshots := snapshots n ++ [appliedIndex n];
       appliedIndex := appliedIndex n; snapshotIndex := appliedIndex n;
       awaitingApply := false;
       commitC := commitC n; commitClosed := commitClosed n;
       errorC := errorC n; errorClosed := errorClosed n; stopped := stopped n |}
  else n.

(** Modelled from the spec: shutdown, on the close signal of the pipe and
    once the engine has nothing left to report.  The Commit Pipeline is
    closed and the completion signal notifies [nil] and is closed. *)
Definition stop (n : RaftNode) : RaftNode :=
  if pipeClosed n && negb (stopped n) && bool_decide (unstable n = []) then
    {| DefaultSnapshotCount := DefaultSnapshotCount n;
       SnapshotCatchUpEntriesN := SnapshotCatchUpEntriesN n;
       ProposeC := ProposeC n; pipeCap := pipeCap n;
       pipeClosed := pipeClosed n;
       submitted := submitted n; accepted := accepted n;
       unstable := unstable n; wal := wal n; snapshots := snapshots n;
       appliedIndex := appliedIndex n; snapshotIndex := snapshotIndex n;
       awaitingApply := awaitingApply n;
       commitC := commitC n; commitClosed := true;
       errorC := errorC n ++ [None]; errorClosed := S (errorClosed n);
       stopped := true |}
  else n.

(** *** Runs *)

Inductive Event :=
| Submit (p : string)
| ClosePipe
| ApplyDone (i : nat)
| TakeProposal
| Ready
| ReadyConfChange (ccs : list ConfChange)
| TriggerSnapshot
| Stop.

Definition step (n : RaftNode) (ev : Event) : RaftNode :=
  match ev with
  | Submit p => (submit p n).2
  | ClosePipe => Close n
  | ApplyDone i => applyDone i n
  | TakeProposal => takeProposal n
  | Ready => ready n
  | ReadyConfChange ccs => readyConfChange ccs n
  | TriggerSnapshot => triggerSnapshot n
  | Stop => stop n
  end.

Definition run (evs : list Event) (n : RaftNode) : RaftNode := foldl step n evs.

(** The events that bring every accepted payload to the application: the
    application closes the handle of its latest batch, the loop passes the
    gate if it waits there and handles the readiness. *)
Definition flush (n : RaftNode) : list Event :=
  [ApplyDone (length (commitC n) - 1); TriggerSnapshot; Ready].

(** The same with the loop emptying the conduit first. *)
Definition settle (n : RaftNode) : list Event :=
  [ApplyDone (length (commitC n) - 1); TriggerSnapshot]
  ++ replicate (length (ProposeC n)) TakeProposal ++ [Ready].

(** *** Predicates on states *)

(** What holds in every state the node reaches from [NewRaftNode K R cap]. *)
Record Inv (K R : nat) (n : RaftNode) : Prop := {
  inv_K : DefaultSnapshotCount n = K;
  inv_R : SnapshotCatchUpEntriesN n = R;
  inv_submitted : submitted n = accepted n ++ ProposeC n;
  inv_accepted : accepted n = delivered n ++ (Payload <$> unstable n);
  inv_unstable :
    Index <$> unstable n = seq (S (appliedIndex n)) (length (unstable n));
  inv_delivered : StronglySorted lt (delivered_indices n);
  inv_delivered_applied : Forall (λ i, i ≤ appliedIndex n) (delivered_indices n);
  inv_wal :
    ∃ c, c ≤ snapshotIndex n - R ∧
         Index <$> wal n = seq (S c) (appliedIndex n - c);
  inv_snap : snapshotIndex n ≤ appliedIndex n;
  inv_await :
    awaitingApply n
    = (snapshotIndex n <? appliedIndex n) && (K <=? snapshotCount n);
  inv_errorC : errorC n = if stopped n then [None] else [];
  inv_errorClosed : errorClosed n = if stopped n then 1 else 0;
  inv_commitClosed : commitClosed n = stopped n;
  inv_stopped : stopped n = true → pipeClosed n = true ∧ unstable n = []
}.

(** A node whose pipe was closed before anything was submitted has an
    empty conduit, an idle engine and an empty Commit Pipeline. *)
Definition idle_closed (n : RaftNode) : Prop :=
  pipeClosed n = true ∧ ProposeC n = [] ∧ unstable n = [] ∧ commitC n = [].



End raftnode.

(** * Further definitions: requests in sequence, and the test cluster *)

(** The calls and the log lines a run of the handler added. *)
Definition new_calls (σ : World) {A} (o : Outcome A) : list Call :=
  drop (length (calls σ)) (calls (world (conn_of o))).

Definition new_logs (σ : World) {A} (o : Outcome A) : list string :=
  drop (length (logged σ)) (logged (world (conn_of o))).

Definition is_BodyClose (c : Call) : bool :=
  match c with CallBodyClose => true | _ => false end.

(** The status codes the cases of a method reply with. *)
Definition reply_codes (method : string) : list nat :=
  if String.eqb method http.MethodPut then [http.StatusNoContent; http.StatusBadRequest]
  else if String.eqb method http.MethodGet
       then [http.StatusOK; http.StatusBadRequest; http.StatusNotFound]
  else if String.eqb method http.MethodPost
       then [http.StatusNoContent; http.StatusBadRequest]
  else if String.eqb method http.MethodDelete
       then [http.StatusNoContent; http.StatusBadRequest]
  else if String.eqb method http.MethodHead then [http.StatusOK]
  else [http.StatusMethodNotAllowed].

(** The methods [ServeHTTP] has a case for. *)
Definition handled_methods : list string :=
  [http.MethodPut; http.MethodGet; http.MethodPost; http.MethodDelete; http.MethodHead].

(** The configuration change a request asks for, if it asks for one: the
    value the POST and DELETE cases build before they send it. *)
Definition conf_change_of (ParseUint : string → N + Err) (r : http.Request) :
    option ConfChange :=
  if String.eqb (http.Method r) http.MethodPost then
    match http.Body r, slice_from_1 (http.RequestURI r) with
    | inl url, Some id =>
        match ParseUint id with
        | inl nodeID => Some {| cc_Type := ConfChangeAddNode; cc_NodeID := nodeID;
                                cc_Context := url |}
        | inr _ => None
        end
    | _, _ => None
    end
  else if String.eqb (http.Method r) http.MethodDelete then
    match slice_from_1 (http.RequestURI r) with
    | Some id =>
        match ParseUint id with
        | inl nodeID => Some {| cc_Type := ConfChangeRemoveNode; cc_NodeID := nodeID;
                                cc_Context := "" |}
        | inr _ => None
        end
    | None => None
    end
  else None.

(** The key-value pair a request proposes, if it proposes one. *)
Definition proposal_of (r : http.Request) : option (string * string) :=
  if String.eqb (http.Method r) http.MethodPut then
    match http.Body r with
    | inl v => Some (http.RequestURI r, v)
    | inr _ => None
    end
  else None.

(** What a step of the collaborators hands to the node. *)
Definition step_conf_change (ParseUint : string → N + Err) (s : Step) :
    option ConfChange :=
  match s with
  | Serve r _ => conf_change_of ParseUint r
  | Commit => None
  end.

(** The number a sequence of decimal digits stands for after the digits
    that made [acc]: what the loop of [ParseUint] computes in base 10. *)
Fixpoint decimal_value (d : Decimal.uint) (acc : N) : N :=
  match d with
  | Decimal.Nil => acc
  | Decimal.D0 d => decimal_value d (acc * 10 + 0)
  | Decimal.D1 d => decimal_value d (acc * 10 + 1)
  | Decimal.D2 d => decimal_value d (acc * 10 + 2)
  | Decimal.D3 d => decimal_value d (acc * 10 + 3)
  | Decimal.D4 d => decimal_value d (acc * 10 + 4)
  | Decimal.D5 d => decimal_value d (acc * 10 + 5)
  | Decimal.D6 d => decimal_value d (acc * 10 + 6)
  | Decimal.D7 d => decimal_value d (acc * 10 + 7)
  | Decimal.D8 d => decimal_value d (acc * 10 + 8)
  | Decimal.D9 d => decimal_value d (acc * 10 + 9)
  end%N.

(** ** The cluster of the tests ([metcd_test.go])

    [newCluster] and [cluster.Close] are kept with the calls they make on
    the file system and on the nodes, in program order; the nodes
    themselves run in package [raftnode]. *)

Module cluster.

(** What the two functions do besides computing values. *)
Inductive Effect :=
| RemoveAll (path : string)
| NewRaftNode (id : nat) (peers : list string) (join : bool)
| Drain (i : nat)
| PipeClose (i : nat)
| WaitError (i : nat).

(** [fmt.Sprintf("http://127.0.0.1:%d", 10000+i)] *)
Definition peerURL (i : nat) : string :=
  "http://127.0.0.1:" +:+ FormatUint (10000 + N.of_nat i).

(** [fmt.Sprintf("metcd-%d", i+1)] and [fmt.Sprintf("metcd-%d-snap", i+1)] *)
Definition dataDir (i : nat) : string := "metcd-" +:+ FormatUint (N.of_nat (i + 1)).
Definition snapDir (i : nat) : string :=
  "metcd-" +:+ FormatUint (N.of_nat (i + 1)) +:+ "-snap".

(** The first loop of [newCluster]. *)
Definition newPeers (n : nat) : list string := peerURL <$> seq 0 n.

(** The second loop of [newCluster], for the nodes from [i] on: the
    directories of node [i+1] are removed and the node is started with ID
    [i+1] on all the peers, not joining. *)
Fixpoint startNodes (peers : list string) (i count : nat) : list Effect :=
  match count with
  | O => []
  | S count' =>
      [RemoveAll (dataDir i); RemoveAll (snapDir i); NewRaftNode (i + 1) peers false]
      ++ startNodes peers (S i) count'
  end.

Definition newCluster (n : nat) : list string * list Effect :=
  let peers := newPeers n in
  (peers, startNodes peers 0 (length peers)).

(** [cluster.Close]: [errorC] lists what each node's error channel
    delivers.  The loop drains the commits of node [i], closes its pipe,
    waits for its error channel and removes its directories; [err] is the
    named result. *)
Fixpoint closeNodes (errorC : list (option Err)) (i : nat) (err : option Err) :
    list Effect * option Err :=
  match errorC with
  | [] => ([], err)
  | erri :: rest =>
      let err' := match erri with Some e => Some e | None => err end in
      let '(effs, result) := closeNodes rest (S i) err' in
      ([Drain i; PipeClose i; WaitError i; RemoveAll (dataDir i); RemoveAll (snapDir i)]
         ++ effs, result)
  end.

Definition Close (errorC : list (option Err)) : list Effect * option Err :=
  closeNodes errorC 0 None.

(** What a list of effects started, removed and closed, in order. *)
Definition started (effs : list Effect) : list (nat * list string * bool) :=
  omap (λ e, match e with
             | NewRaftNode id peers join => Some (id, peers, join)
             | _ => None
             end) effs.

Definition removed (effs : list Effect) : list string :=
  omap (λ e, match e with RemoveAll path => Some path | _ => None end) effs.

Definition closed_pipes (effs : list Effect) : list nat :=
  omap (λ e, match e with PipeClose i => Some i | _ => None end) effs.

(** The directories of the nodes [i+1] to [i+count]. *)
Definition dirs (i count : nat) : list string :=
  concat ((λ j, [dataDir j; snapDir j]) <$> seq i count).

End cluster.

(** * Properties *)

(** ** The Go library functions on small inputs *)

Example ParseUint_decimal : strconv.ParseUint "4" = inl 4%N.
Proof. reflexivity. Qed.

Example ParseUint_hex : strconv.ParseUint "0x1F" = inl 31%N.
Proof. reflexivity. Qed.

Example ParseUint_octal : strconv.ParseUint "017" = inl 15%N.
Proof. reflexivity. Qed.

Example ParseUint_separator : strconv.ParseUint "1_000" = inl 1000%N.
Proof. reflexivity. Qed.

Example ParseUint_max : strconv.ParseUint "18446744073709551615" = inl strconv.maxUint64.
Proof. reflexivity. Qed.

Example ParseUint_range :
  strconv.ParseUint "18446744073709551616"
  = inr (strconv.rangeError "18446744073709551616").
Proof. reflexivity. Qed.

Example ParseUint_syntax : strconv.ParseUint "abc" = inr (strconv.syntaxError "abc").
Proof. reflexivity. Qed.

Example ParseUint_empty : strconv.ParseUint "" = inr (strconv.syntaxError "").
Proof. reflexivity. Qed.

Example ParseUint_sign : strconv.ParseUint "-1" = inr (strconv.syntaxError "-1").
Proof. reflexivity. Qed.

Example FormatUint_max : FormatUint strconv.maxUint64 = "18446744073709551615".
Proof. reflexivity. Qed.

Example CanonicalHeaderKey_leader : http.CanonicalHeaderKey "X-IS-Leader" = "X-Is-Leader".
Proof. reflexivity. Qed.

(** ** Properties of the handler *)

Section ServeHTTP_facts.

Variable ParseUint : string → N + Err.

(** The switch on [r.Method], one equation per case. *)
Lemma ServeHTTP_Put r :
  http.Method r = http.MethodPut →
  ServeHTTP ParseUint r = defer Body_Close (servePut (http.RequestURI r) r).
Proof. intros H. unfold ServeHTTP. by rewrite H. Qed.

Lemma ServeHTTP_Get r :
  http.Method r = http.MethodGet →
  ServeHTTP ParseUint r = defer Body_Close (serveGet (http.RequestURI r)).
Proof. intros H. unfold ServeHTTP. by rewrite H. Qed.

Lemma ServeHTTP_Post r :
  http.Method r = http.MethodPost →
  ServeHTTP ParseUint r = defer Body_Close (servePost ParseUint (http.RequestURI r) r).
Proof. intros H. unfold ServeHTTP. by rewrite H. Qed.

Lemma ServeHTTP_Delete r :
  http.Method r = http.MethodDelete →
  ServeHTTP ParseUint r = defer Body_Close (serveDelete ParseUint (http.RequestURI r)).
Proof. intros H. unfold ServeHTTP. by rewrite H. Qed.

Lemma ServeHTTP_Head r :
  http.Method r = http.MethodHead →
  ServeHTTP ParseUint r = defer Body_Close serveHead.
Proof. intros H. unfold ServeHTTP. by rewrite H. Qed.

End ServeHTTP_facts.

Ltac run_handler :=
  unfold serve, connect, defer, servePut, serveGet, servePost, serveDelete,
    serveHead, serveDefault, ReadAll, Body_Close, log_Printf, store_Propose,
    store_Lookup, rc_LinearizableReadNotify, rc_ID, rc_IsLeader,
    send_confChange, panic, on_world, on_resp, read_world,
    mbind, mret, Handler_MBind, Handler_MRet, Handler_bind, Handler_ret;
  cbn [world resp conn_of returned].

(** Reading back a header that was added once to a map without it. *)
Lemma Header_Values_Add k v h :
  h !! http.CanonicalHeaderKey k = None →
  http.Header_Values k (http.Header_Add k v h) = [v].
Proof.
  intros Hk. unfold http.Header_Values, http.Header_Add.
  by rewrite lookup_insert_eq, Hk.
Qed.

Lemma Header_Values_Add_other k k' v h :
  http.CanonicalHeaderKey k ≠ http.CanonicalHeaderKey k' →
  http.Header_Values k' (http.Header_Add k v h) = http.Header_Values k' h.
Proof.
  intros Hk. unfold http.Header_Values, http.Header_Add.
  by rewrite lookup_insert_ne.
Qed.

(** C9. A HEAD request is answered with status 200, the node's numeric ID
    in decimal under the header X-ID and its leadership flag under the
    header X-IS-Leader: the text true when the node leads, the text false
    when it does not.  Nothing else about the node, the store or the
    channels changes.  (Header names are case-insensitive: the map keeps
    them under their canonical spelling and looks them up the same way.) *)
Theorem head_reports_id_and_leadership ParseUint r σ :
  http.Method r = http.MethodHead →
  let o := serve ParseUint r σ in
  returned o = true ∧
  http.status (resp (conn_of o)) = Some 200%nat ∧
  http.Header_Values "X-ID" (http.header (resp (conn_of o)))
    = [NilZero.string_of_uint (N.to_uint (rcID σ))] ∧
  http.Header_Values "X-IS-Leader" (http.header (resp (conn_of o)))
    = [if rcIsLeader σ then "true" else "false"] ∧
  same_state σ (world (conn_of o)).
Proof.
  intros H o. subst o. unfold serve. rewrite ServeHTTP_Head by done.
  run_handler. split; [done|]. split; [done|].
  cbn [http.WriteHeader http.with_header http.newResponse http.status http.header
       rcID rcIsLeader record_call].
  split; [|split].
  - rewrite Header_Values_Add_other by (vm_compute; discriminate).
    by apply Header_Values_Add.
  - apply Header_Values_Add. unfold http.Header_Add.
    by rewrite lookup_insert_ne by (vm_compute; discriminate).
  - by repeat split.
Qed.

(** A node with ID 4 that leads, and the node with the largest ID there is
    that follows: the HEAD reply carries 4 and true for the one, the ID in
    full and false for the other. *)
Lemma head_reports_id_and_leadership_witness :
  let r := {| http.Method := "HEAD"; http.RequestURI := "/"; http.Body := inl "" |} in
  let leader := {| kvStore := ∅; proposed := []; confChangeC := []; rcID := 4;
                   rcIsLeader := true; rcReadNotify := None; rcConfState := ∅;
                   logged := []; calls := [] |} in
  let follower := {| kvStore := ∅; proposed := []; confChangeC := [];
                     rcID := 18446744073709551615;
                     rcIsLeader := false; rcReadNotify := None; rcConfState := ∅;
                     logged := []; calls := [] |} in
  let o := serve strconv.ParseUint r leader in
  let o' := serve strconv.ParseUint r follower in
  (http.status (resp (conn_of o)) = Some 200%nat ∧
   http.Header_Values "X-ID" (http.header (resp (conn_of o))) = ["4"] ∧
   http.Header_Values "X-IS-Leader" (http.header (resp (conn_of o))) = ["true"]) ∧
  (http.status (resp (conn_of o')) = Some 200%nat ∧
   http.Header_Values "X-ID" (http.header (resp (conn_of o')))
     = ["18446744073709551615"] ∧
   http.Header_Values "X-IS-Leader" (http.header (resp (conn_of o'))) = ["false"]).
Proof.
  intros r leader follower o o'.
  destruct (head_reports_id_and_leadership strconv.ParseUint r leader eq_refl)
    as (_ & Hs & Hid & Hl & _).
  destruct (head_reports_id_and_leadership strconv.ParseUint r follower eq_refl)
    as (_ & Hs' & Hid' & Hl' & _).
  exact (conj (conj Hs (conj Hid Hl)) (conj Hs' (conj Hid' Hl'))).
Defined.

(** C7. A GET calls [LinearizableReadNotify] before anything else and looks
    the key up only after it, when it succeeded.  When it fails the handler
    replies 400 without a lookup, returns normally and leaves the store, the
    channels and the node as they were: the failure stays with the request. *)
Theorem get_confirms_read_before_lookup ParseUint r σ :
  http.Method r = http.MethodGet →
  let o := serve ParseUint r σ in
  made_calls σ o
    (CallLinearizableReadNotify ::
       match rcReadNotify σ with
       | None => [CallLookup (http.RequestURI r); CallBodyClose]
       | Some _ => [CallBodyClose]
       end) ∧
  (∀ err, rcReadNotify σ = Some err →
     returned o = true ∧
     http.status (resp (conn_of o)) = Some http.StatusBadRequest ∧
     http.body (resp (conn_of o)) = "Failed on GET" +:+ newline ∧
     (∀ k, CallLookup k ∉ drop (length (calls σ)) (calls (world (conn_of o)))) ∧
     same_state σ (world (conn_of o))).
Proof.
  intros H o. subst o. unfold serve, made_calls. rewrite ServeHTTP_Get by done.
  run_handler. cbn [rcReadNotify record_call].
  destruct (rcReadNotify σ) as [e|] eqn:He; run_handler.
  - split.
    + cbn. by rewrite <- !app_assoc.
    + intros err _. repeat split; try done.
      intros k. cbn. rewrite <- app_assoc, drop_app_length.
      intros Hin. repeat (apply elem_of_cons in Hin as [Hin|Hin]; [discriminate|]).
      by apply elem_of_nil in Hin.
  - split; [|intros err Herr; discriminate].
    cbn [kvStore record_call].
    destruct (kvStore σ !! http.RequestURI r); cbn; by rewrite <- !app_assoc.
Qed.

(** A GET whose read confirmation times out. *)
Lemma get_confirms_read_before_lookup_witness :
  let r := {| http.Method := "GET"; http.RequestURI := "/k"; http.Body := inl "" |} in
  let σ := {| kvStore := {[ "/k" := "v" ]}; proposed := []; confChangeC := [];
              rcID := 1; rcIsLeader := false;
              rcReadNotify := Some "context deadline exceeded";
              rcConfState := ∅; logged := []; calls := [] |} in
  let o := serve strconv.ParseUint r σ in
  calls (world (conn_of o)) = [CallLinearizableReadNotify; CallBodyClose] ∧
  http.status (resp (conn_of o)) = Some 400.
Proof.
  intros r σ o.
  destruct (get_confirms_read_before_lookup strconv.ParseUint r σ eq_refl)
    as [Hc Hf].
  destruct (Hf _ eq_refl) as (_ & Hs & _).
  exact (conj Hc Hs).
Defined.

(** C8. A POST to [/nodeID] whose body is read sends on the
    configuration-change channel an add-node change with that node ID and
    the body as its context; a DELETE of [/nodeID] sends a remove-node
    change for that ID.  Either way the handler replies 204 as soon as the
    change is sent: it is the newest value in the channel, and the
    membership the node has applied is still what it was. *)
Theorem conf_change_submitted ParseUint r σ id nodeID :
  http.RequestURI r = String "/" id →
  ParseUint id = inl nodeID →
  let o := serve ParseUint r σ in
  (∀ url, http.Method r = http.MethodPost → http.Body r = inl url →
     let cc := {| cc_Type := ConfChangeAddNode; cc_NodeID := nodeID;
                  cc_Context := url |} in
     returned o = true ∧
     confChangeC (world (conn_of o)) = confChangeC σ ++ [cc] ∧
     made_calls σ o [CallReadAll; CallSend cc; CallBodyClose] ∧
     http.status (resp (conn_of o)) = Some http.StatusNoContent ∧
     rcConfState (world (conn_of o)) = rcConfState σ ∧
     kvStore (world (conn_of o)) = kvStore σ ∧
     proposed (world (conn_of o)) = proposed σ) ∧
  (http.Method r = http.MethodDelete →
     let cc := {| cc_Type := ConfChangeRemoveNode; cc_NodeID := nodeID;
                  cc_Context := "" |} in
     returned o = true ∧
     confChangeC (world (conn_of o)) = confChangeC σ ++ [cc] ∧
     made_calls σ o [CallSend cc; CallBodyClose] ∧
     http.status (resp (conn_of o)) = Some http.StatusNoContent ∧
     rcConfState (world (conn_of o)) = rcConfState σ ∧
     kvStore (world (conn_of o)) = kvStore σ ∧
     proposed (world (conn_of o)) = proposed σ).
Proof.
  intros Huri Hid o. subst o. unfold serve, made_calls. split.
  - intros url Hm Hb. rewrite ServeHTTP_Post by done.
    run_handler. rewrite Hb, Huri. cbn [slice_from_1]. rewrite Hid.
    run_handler. repeat split; cbn; by rewrite <- ?app_assoc.
  - intros Hm. rewrite ServeHTTP_Delete by done.
    run_handler. rewrite Huri. cbn [slice_from_1]. rewrite Hid.
    run_handler. repeat split; cbn; by rewrite <- ?app_assoc.
Qed.

(** Node 4 is added with its peer address, as in [TestAddNewNode]. *)
Lemma conf_change_submitted_witness :
  let r := {| http.Method := "POST"; http.RequestURI := "/4";
              http.Body := inl "http://127.0.0.1:10004" |} in
  let σ := {| kvStore := ∅; proposed := []; confChangeC := []; rcID := 1;
              rcIsLeader := true; rcReadNotify := None;
              rcConfState := {[ 1%N; 2%N; 3%N ]}; logged := []; calls := [] |} in
  let o := serve strconv.ParseUint r σ in
  confChangeC (world (conn_of o))
    = [ {| cc_Type := ConfChangeAddNode; cc_NodeID := 4;
           cc_Context := "http://127.0.0.1:10004" |} ] ∧
  http.status (resp (conn_of o)) = Some 204 ∧
  rcConfState (world (conn_of o)) = {[ 1%N; 2%N; 3%N ]}.
Proof.
  intros r σ o.
  destruct (conf_change_submitted strconv.ParseUint r σ "4" 4 eq_refl eq_refl)
    as [Hpost _].
  destruct (Hpost _ eq_refl eq_refl) as (_ & Hc & _ & Hs & Hm & _).
  exact (conj Hc (conj Hs Hm)).
Defined.

(** C10. On a malformed request the handler returns with status 400, and
    the store, the pending proposals, the configuration-change channel and
    the node are as before: no proposal was submitted and no configuration
    change was sent. *)
Theorem malformed_request_rejected ParseUint r σ :
  malformed ParseUint r →
  let o := serve ParseUint r σ in
  returned o = true ∧
  http.status (resp (conn_of o)) = Some http.StatusBadRequest ∧
  same_state σ (world (conn_of o)) ∧
  (∀ c, c ∈ drop (length (calls σ)) (calls (world (conn_of o))) →
        c = CallReadAll ∨ c = CallBodyClose).
Proof.
  intros Hbad o. subst o. unfold serve.
  assert (Hcalls : ∀ cs : list Call,
    (∀ c, c ∈ cs → c = CallReadAll ∨ c = CallBodyClose) →
    ∀ c, c ∈ drop (length (calls σ)) (calls σ ++ cs) →
         c = CallReadAll ∨ c = CallBodyClose).
  { intros cs Hcs c. by rewrite drop_app_length; auto. }
  assert (Hclose : ∀ c, c ∈ [CallBodyClose] → c = CallReadAll ∨ c = CallBodyClose).
  { intros c Hc. apply list_elem_of_singleton in Hc. by right. }
  assert (Hboth : ∀ c, c ∈ [CallReadAll; CallBodyClose] →
                       c = CallReadAll ∨ c = CallBodyClose).
  { intros c Hc. apply elem_of_cons in Hc as [Hc|Hc]; [by left|].
    apply list_elem_of_singleton in Hc. by right. }
  destruct Hbad as [[Hm [err Hb]] | [Hm (ch & id & err & Huri & Hid)]].
  - rewrite ServeHTTP_Put by done. run_handler. rewrite Hb. run_handler.
    repeat split; try done. cbn. rewrite <- app_assoc. by apply Hcalls.
  - destruct Hm as [Hm|Hm].
    + rewrite ServeHTTP_Post by done. run_handler.
      destruct (http.Body r) as [url|e]; run_handler.
      * rewrite Huri. cbn [slice_from_1]. rewrite Hid. run_handler.
        repeat split; try done. cbn. rewrite <- app_assoc. by apply Hcalls.
      * repeat split; try done. cbn. rewrite <- app_assoc. by apply Hcalls.
    + rewrite ServeHTTP_Delete by done. run_handler.
      rewrite Huri. cbn [slice_from_1]. rewrite Hid. run_handler.
      repeat split; try done. cbn. by apply Hcalls.
Qed.

(** A DELETE of [/abc]: no node ID, status 400, nothing sent. *)
Lemma malformed_request_rejected_witness :
  let r := {| http.Method := "DELETE"; http.RequestURI := "/abc"; http.Body := inl "" |} in
  let σ := {| kvStore := ∅; proposed := []; confChangeC := []; rcID := 1;
              rcIsLeader := true; rcReadNotify := None;
              rcConfState := {[ 1%N ]}; logged := []; calls := [] |} in
  let o := serve strconv.ParseUint r σ in
  http.status (resp (conn_of o)) = Some 400 ∧
  confChangeC (world (conn_of o)) = [].
Proof.
  intros r σ o.
  assert (Hbad : malformed strconv.ParseUint r).
  { right. split; [by right|].
    exists "/"%char, "abc", (strconv.syntaxError "abc"). split; reflexivity. }
  destruct (malformed_request_rejected strconv.ParseUint r σ Hbad)
    as (_ & Hs & (_ & _ & Hc & _) & _).
  exact (conj Hs Hc).
Defined.

(** ** The store behind the handler *)

Section Store.

Variable ParseUint : string → N + Err.

Ltac untouched := split; [reflexivity | left; reflexivity].

Lemma serve_store r σ :
  let σ' := world (conn_of (serve ParseUint r σ)) in
  kvStore σ' = kvStore σ ∧
  (proposed σ' = proposed σ ∨
   ∃ v, http.Method r = http.MethodPut ∧
        proposed σ' = proposed σ ++ [(http.RequestURI r, v)]).
Proof.
  unfold serve, ServeHTTP.
  destruct (String.eqb_spec (http.Method r) http.MethodPut) as [Hput|_].
  { run_handler. destruct (http.Body r) as [v|e]; run_handler.
    - split; [done|]. right. by exists v.
    - split; [done|]. by left. }
  destruct (String.eqb (http.Method r) http.MethodGet).
  { run_handler. destruct (rcReadNotify _); run_handler; [untouched|].
    cbn [kvStore record_call].
    destruct (kvStore σ !! http.RequestURI r); run_handler; untouched. }
  destruct (String.eqb (http.Method r) http.MethodPost).
  { run_handler. destruct (http.Body r) as [v|e]; run_handler; [|untouched].
    destruct (slice_from_1 _) as [id|]; run_handler; [|untouched].
    destruct (ParseUint id); run_handler; untouched. }
  destruct (String.eqb (http.Method r) http.MethodDelete).
  { run_handler.
    destruct (slice_from_1 _) as [id|]; run_handler; [|untouched].
    destruct (ParseUint id); run_handler; untouched. }
  destruct (String.eqb (http.Method r) http.MethodHead);
    run_handler; untouched.
Qed.

Lemma unset_step k s σ : sets_key k s = false → unset k σ → unset k (world_step ParseUint σ s).
Proof.
  intros Hs [Hkv Hq]. destruct s as [r e|]; cbn [world_step sets_key] in *.
  - destruct (serve_store r (set_readNotify e σ)) as [Hkv' Hq'].
    cbn zeta in Hkv', Hq'. split; [by rewrite Hkv'|].
    destruct Hq' as [->|(v & Hm & ->)]; [done|].
    intros v' Hin. apply elem_of_app in Hin as [Hin|Hin]; [by eapply Hq|].
    apply list_elem_of_singleton in Hin. injection Hin as Hk _.
    rewrite Hm, String.eqb_refl, andb_true_l in Hs.
    rewrite <- Hk, String.eqb_refl in Hs. discriminate.
  - assert (Hu : unset k σ) by (by split).
    unfold commit_one. destruct (proposed σ) as [|[k' v'] rest]; [done|].
    split; cbn [kvStore proposed].
    + rewrite lookup_insert_ne; [done|]. intros ->. apply (Hq v'). by left.
    + intros v Hin. apply (Hq v). by right.
Qed.

Lemma unset_run k steps σ :
  forallb (λ s, negb (sets_key k s)) steps = true → unset k σ → unset k (world_run ParseUint steps σ).
Proof.
  revert σ. induction steps as [|s steps IH]; intros σ Hall Hu; [done|].
  cbn in Hall. apply andb_true_iff in Hall as [Hs Hall].
  apply negb_true_iff in Hs. cbn. apply IH; [done|]. by apply unset_step.
Qed.

Lemma commit_one_nil σ : proposed σ = [] → commit_one σ = σ.
Proof. intros Hp. unfold commit_one. by rewrite Hp. Qed.

Lemma commit_one_cons σ k v rest :
  proposed σ = (k, v) :: rest →
  kvStore (commit_one σ) = <[k := v]> (kvStore σ) ∧ proposed (commit_one σ) = rest.
Proof. intros Hp. unfold commit_one. by rewrite Hp. Qed.

(** Committing everything pending writes the pairs in order. *)
Lemma commit_n_spec (n : nat) σ :
  (length (proposed σ) ≤ n)%nat →
  kvStore (commit_n n σ) = foldl (λ m kv, <[kv.1 := kv.2]> m) (kvStore σ) (proposed σ) ∧
  proposed (commit_n n σ) = [].
Proof.
  revert σ. induction n as [|n IH]; intros σ Hlen.
  - destruct (proposed σ) as [|kv rest] eqn:Hp; [done|cbn in Hlen; lia].
  - cbn [commit_n]. destruct (proposed σ) as [|[k v] rest] eqn:Hp.
    + rewrite commit_one_nil by done.
      destruct (IH σ) as [H1 H2]; [rewrite Hp; cbn; lia|]. by rewrite Hp in H1.
    + destruct (commit_one_cons σ k v rest Hp) as [Hkv Hq].
      destruct (IH (commit_one σ)) as [H1 H2]; [rewrite Hq; cbn in Hlen; lia|].
      by rewrite H1, H2, Hkv, Hq.
Qed.

End Store.

(** C6, as the code has it.  With the read confirmed by the node: a GET for
    a key that no PUT has named since the store was empty is answered 404;
    and once a PUT of a key has committed, a GET for that key is answered
    200 with exactly the bytes the PUT carried. *)
Theorem get_returns_what_put_wrote ParseUint (k : string) :
  (∀ id leader steps get,
     forallb (λ s, negb (sets_key k s)) steps = true →
     http.Method get = http.MethodGet → http.RequestURI get = k →
     let σ := set_readNotify None (world_run ParseUint steps (newWorld id leader)) in
     let o := serve ParseUint get σ in
     returned o = true ∧
     http.status (resp (conn_of o)) = Some http.StatusNotFound ∧
     http.body (resp (conn_of o)) = "Failed to GET" +:+ newline) ∧
  (∀ σ put get v (n : nat),
     http.Method put = http.MethodPut → http.RequestURI put = k →
     http.Body put = inl v →
     http.Method get = http.MethodGet → http.RequestURI get = k →
     let σ1 := world (conn_of (serve ParseUint put σ)) in
     (length (proposed σ1) ≤ n)%nat →
     let σ2 := set_readNotify None (commit_n n σ1) in
     let o := serve ParseUint get σ2 in
     returned o = true ∧
     http.status (resp (conn_of o)) = Some http.StatusOK ∧
     http.body (resp (conn_of o)) = v).
Proof.
  split.
  - intros id leader steps get Hall Hm Huri σ o. subst o.
    assert (Hu : unset k (world_run ParseUint steps (newWorld id leader))).
    { apply unset_run; [done|]. split; [apply lookup_empty|].
      intros v Hin. by apply elem_of_nil in Hin. }
    destruct Hu as [Hkv _].
    unfold serve. rewrite ServeHTTP_Get by done. run_handler.
    subst σ. cbn [rcReadNotify record_call set_readNotify]. run_handler.
    cbn [kvStore record_call set_readNotify].
    rewrite Huri, Hkv. by run_handler.
  - intros σ put get v n Hpm Hpu Hpb Hgm Hgu σ1 Hlen σ2 o.
    assert (Hq : proposed σ1 = proposed σ ++ [(k, v)]).
    { subst σ1. unfold serve. rewrite ServeHTTP_Put by done.
      run_handler. rewrite Hpb, Hpu. by run_handler. }
    assert (Hkv : kvStore σ2 !! k = Some v).
    { subst σ2. cbn [kvStore set_readNotify].
      destruct (commit_n_spec n σ1 Hlen) as [-> _].
      rewrite Hq, foldl_app. cbn. apply lookup_insert_eq. }
    subst o. unfold serve. rewrite ServeHTTP_Get by done. run_handler.
    cbn [rcReadNotify kvStore record_call].
    replace (rcReadNotify σ2) with (@None Err) by done.
    run_handler. cbn [kvStore record_call]. rewrite Hgu, Hkv. by run_handler.
Qed.

(** The round trip of [TestPutAndGetKeyValue], and a key never set. *)
Lemma get_returns_what_put_wrote_witness :
  let put := {| http.Method := "PUT"; http.RequestURI := "/test-key";
                http.Body := inl "test-value" |} in
  let get := {| http.Method := "GET"; http.RequestURI := "/test-key";
                http.Body := inl "" |} in
  let other := {| http.Method := "PUT"; http.RequestURI := "/other";
                  http.Body := inl "x" |} in
  let σ0 := newWorld 1 true in
  http.status (resp (conn_of (serve strconv.ParseUint get
     (set_readNotify None (world_run strconv.ParseUint [Serve other None; Commit] σ0)))))
  = Some 404 ∧
  http.body (resp (conn_of (serve strconv.ParseUint get
     (set_readNotify None
        (commit_n 1 (world (conn_of (serve strconv.ParseUint put σ0))))))))
  = "test-value".
Proof.
  intros put get other σ0.
  destruct (get_returns_what_put_wrote strconv.ParseUint "/test-key") as [Hunset Hset].
  split.
  - exact (proj1 (proj2 (Hunset 1%N true [Serve other None; Commit] get
                           eq_refl eq_refl eq_refl))).
  - assert (Hlen : (length (proposed (world (conn_of
                      (serve strconv.ParseUint put σ0)))) ≤ 1)%nat)
      by (vm_compute; lia).
    exact (proj2 (proj2 (Hset σ0 put get "test-value" 1%nat
                           eq_refl eq_refl eq_refl eq_refl eq_refl Hlen))).
Defined.

(** C6 as stated fails: a GET for a key that was never set is answered 400,
    not 404, when the node does not confirm the read. *)
Lemma get_unset_key_without_confirmation :
  let get := {| http.Method := "GET"; http.RequestURI := "/test-key";
                http.Body := inl "" |} in
  let σ := set_readNotify (Some "context deadline exceeded") (newWorld 1 true) in
  let o := serve strconv.ParseUint get σ in
  kvStore σ = ∅ ∧ proposed σ = [] ∧
  http.status (resp (conn_of o)) = Some http.StatusBadRequest ∧
  http.status (resp (conn_of o)) ≠ Some http.StatusNotFound.
Proof.
  intros get σ o. repeat split; try reflexivity. discriminate.
Qed.

(** ** Invariants of the node manager *)

Section NodeManager.

Import raftnode.
#[local] Open Scope nat_scope.

Lemma concat_fmap_snoc {A B} (f : A → list B) (l : list A) (x : A) :
  concat (f <$> (l ++ [x])) = concat (f <$> l) ++ f x.
Proof. rewrite fmap_app, concat_app. cbn. by rewrite app_nil_r. Qed.

Lemma concat_fmap_alter {A B} (f : A → list B) (g : A → A) (i : nat) (l : list A) :
  (∀ x, f (g x) = f x) → concat (f <$> alter g i l) = concat (f <$> l).
Proof.
  intros Hfg. revert i. induction l as [|x l IH]; intros [|i]; cbn; try done.
  - by rewrite Hfg.
  - by rewrite (IH i).
Qed.

(** Compacting a log whose indices run from [c+1] on drops its first
    [m - c] entries. *)
Lemma Compact_drop (m c k : nat) (log : list Entry) :
  Index <$> log = seq (S c) k → Compact m log = drop (m - c) log.
Proof.
  unfold Compact. revert c k. induction log as [|e log IH]; intros c k Hidx.
  - by destruct (m - c).
  - destruct k as [|k]; [done|]. cbn in Hidx. injection Hidx as He Hlog.
    rewrite filter_cons. destruct (decide (m < Index e)) as [Hlt|Hge].
    + replace (m - c) with 0 by lia. cbn. f_equal.
      rewrite (IH (S c) k Hlog). by replace (m - S c) with 0 by lia.
    + replace (m - c) with (S (m - S c)) by lia. cbn. by apply (IH (S c) k).
Qed.

(** Strictly increasing runs of indices. *)
Lemma seq_StronglySorted (a k : nat) : StronglySorted lt (seq a k).
Proof.
  revert a. induction k as [|k IH]; intros a; cbn; constructor; [apply IH|].
  apply Forall_forall. intros x Hx. apply elem_of_seq in Hx. lia.
Qed.

(** Indices up to [a], followed by the next [k] indices. *)
Lemma StronglySorted_app_seq (l : list nat) (a k : nat) :
  StronglySorted lt l → Forall (λ i, i ≤ a) l →
  StronglySorted lt (l ++ seq (S a) k) ∧
  Forall (λ i, i ≤ a + k) (l ++ seq (S a) k).
Proof.
  intros Hl Ha. split.
  - apply StronglySorted_app_2; [|done|apply seq_StronglySorted].
    intros x1 x2 H1 H2. rewrite Forall_forall in Ha. apply Ha in H1.
    apply elem_of_seq in H2. lia.
  - apply Forall_app. split.
    + eapply Forall_impl; [exact Ha|]. cbn. lia.
    + apply Forall_forall. intros x Hx. apply elem_of_seq in Hx. lia.
Qed.

Lemma confChangeEntries_indices (next : nat) (ccs : list ConfChange) :
  Index <$> confChangeEntries next ccs = seq next (length ccs).
Proof.
  revert next. induction ccs as [|cc ccs IH]; intros next; [done|].
  cbn. by rewrite IH.
Qed.

Lemma Inv_New K R cap : Inv K R (NewRaftNode K R cap).
Proof.
  constructor; try done.
  - constructor.
  - by exists 0.
Qed.

Lemma Inv_submit K R p n : Inv K R n → Inv K R (submit p n).2.
Proof.
  intros HI. pose proof HI as [].
  unfold submit. destruct (pipeClosed n); [done|].
  destruct (length (ProposeC n) <? pipeCap n); [|done].
  constructor; try done; cbn.
  rewrite inv_submitted0. by rewrite <- !app_assoc.
Qed.

Lemma Inv_Close K R n : Inv K R n → Inv K R (Close n).
Proof. intros []. constructor; try done; cbn. intros Hs. by destruct (inv_stopped0 Hs). Qed.

Lemma Inv_applyDone K R i n : Inv K R n → Inv K R (applyDone i n).
Proof.
  intros []. constructor; try done; unfold delivered, delivered_indices in *; cbn.
  - by rewrite concat_fmap_alter.
  - by rewrite concat_fmap_alter.
  - by rewrite concat_fmap_alter.
Qed.

Lemma Inv_takeProposal K R n : Inv K R n → Inv K R (takeProposal n).
Proof.
  intros HI. pose proof HI as [].
  unfold takeProposal. destruct (ProposeC n) as [|p rest] eqn:Hq; [done|].
  destruct (pipeClosed n || stopped n) eqn:Hc; [done|].
  apply orb_false_iff in Hc as [Hclosed Hstopped].
  constructor; try done; cbn.
  - rewrite inv_submitted0. by rewrite <- !app_assoc.
  - rewrite inv_accepted0, fmap_app. cbn. by rewrite <- !app_assoc.
  - rewrite fmap_app, length_app, inv_unstable0. cbn.
    unfold lastIndex. by rewrite seq_app.
  - intros Hs. congruence.
Qed.

Lemma Inv_ready K R n : Inv K R n → Inv K R (ready n).
Proof.
  intros HI. pose proof HI as [].
  unfold ready. destruct (unstable n) as [|e ents] eqn:Hu; [done|].
  destruct (stopped n || awaitingApply n) eqn:Hc; [done|].
  apply orb_false_iff in Hc as [Hstopped Hawait].
  destruct inv_wal0 as (c & Hc & Hwal).
  assert (Hlast : lastIndex n = appliedIndex n + S (length ents)).
  { unfold lastIndex. by rewrite Hu. }
  constructor; try done; cbn [DefaultSnapshotCount SnapshotCatchUpEntriesN accepted
    submitted unstable wal appliedIndex snapshotIndex awaitingApply errorC
    errorClosed commitClosed stopped pipeClosed ProposeC].
  - rewrite inv_accepted0. unfold delivered. cbn [commitC].
    rewrite concat_fmap_snoc. cbn. by rewrite app_nil_r.
  - unfold delivered_indices in *. cbn [commitC].
    rewrite concat_fmap_snoc. cbn [Ents]. rewrite inv_unstable0.
    by apply StronglySorted_app_seq.
  - unfold delivered_indices in *. cbn [commitC].
    rewrite concat_fmap_snoc. cbn [Ents]. rewrite inv_unstable0, Hlast.
    by apply StronglySorted_app_seq.
  - exists c. split; [done|].
    rewrite fmap_app, Hwal, inv_unstable0, Hlast. cbn [length].
    replace (appliedIndex n + S (length ents) - c)
      with ((appliedIndex n - c) + S (length ents)) by lia.
    rewrite seq_app. do 2 f_equal. lia.
  - lia.
  - unfold snapshotCount. cbn [appliedIndex snapshotIndex].
    replace (snapshotIndex n <? lastIndex n) with true; [by rewrite inv_K0|].
    symmetry. apply Nat.ltb_lt. lia.
  - by rewrite Hstopped.
Qed.

Lemma Inv_readyConfChange K R ccs n : Inv K R n → Inv K R (readyConfChange ccs n).
Proof.
  intros HI. pose proof HI as [].
  unfold readyConfChange. destruct ccs as [|cc ccs]; [done|].
  destruct (stopped n || awaitingApply n || negb (bool_decide (unstable n = [])))
    eqn:Hc; [done|].
  apply orb_false_iff in Hc as [Hc Hu]. apply orb_false_iff in Hc as [Hstopped Hawait].
  apply negb_false_iff, bool_decide_eq_true in Hu.
  destruct inv_wal0 as (c & Hc & Hwal).
  constructor; try done; cbn [DefaultSnapshotCount SnapshotCatchUpEntriesN accepted
    submitted unstable wal appliedIndex snapshotIndex awaitingApply errorC
    errorClosed commitClosed stopped pipeClosed ProposeC].
  - by rewrite Hu.
  - eapply Forall_impl; [exact inv_delivered_applied0|]. cbn. lia.
  - exists c. split; [done|].
    rewrite fmap_app, Hwal, confChangeEntries_indices.
    replace (appliedIndex n + length (cc :: ccs) - c)
      with ((appliedIndex n - c) + length (cc :: ccs)) by lia.
    rewrite seq_app. do 2 f_equal. lia.
  - lia.
  - unfold snapshotCount. cbn [appliedIndex snapshotIndex].
    replace (snapshotIndex n <? appliedIndex n + length (cc :: ccs)) with true;
      [by rewrite inv_K0|].
    symmetry. apply Nat.ltb_lt. cbn [length]. lia.
Qed.

Lemma Inv_triggerSnapshot K R n : Inv K R n → Inv K R (triggerSnapshot n).
Proof.
  intros HI. pose proof HI as [].
  unfold triggerSnapshot.
  destruct (awaitingApply n && applyDoneSignalled n && negb (stopped n)) eqn:Hc;
    [|done].
  destruct inv_wal0 as (c & Hc' & Hwal).
  constructor; try done; cbn [DefaultSnapshotCount SnapshotCatchUpEntriesN accepted
    submitted unstable wal appliedIndex snapshotIndex awaitingApply errorC
    errorClosed commitClosed stopped pipeClosed ProposeC].
  - exists (appliedIndex n - R). split; [done|].
    rewrite inv_R0, (Compact_drop _ c (appliedIndex n - c)) by done.
    rewrite fmap_drop, Hwal, drop_seq. f_equal; lia.
  - unfold snapshotCount. cbn [appliedIndex snapshotIndex].
    by rewrite Nat.ltb_irrefl.
Qed.

Lemma Inv_stop K R n : Inv K R n → Inv K R (stop n).
Proof.
  intros HI. pose proof HI as [].
  unfold stop.
  destruct (pipeClosed n && negb (stopped n) && bool_decide (unstable n = [])) eqn:Hc;
    [|done].
  apply andb_true_iff in Hc as [Hc Hu]. apply andb_true_iff in Hc as [Hclosed Hs].
  apply negb_true_iff in Hs. apply bool_decide_eq_true in Hu.
  constructor; try done; cbn.
  - by rewrite inv_errorC0, Hs.
  - by rewrite inv_errorClosed0, Hs.
Qed.

Lemma Inv_step K R n ev : Inv K R n → Inv K R (step n ev).
Proof.
  destruct ev; cbn [step];
    auto using Inv_submit, Inv_Close, Inv_applyDone, Inv_takeProposal,
      Inv_ready, Inv_readyConfChange, Inv_triggerSnapshot, Inv_stop.
Qed.

Lemma Inv_run K R evs n : Inv K R n → Inv K R (run evs n).
Proof.
  revert n. induction evs as [|ev evs IH]; intros n HI; [done|].
  cbn. apply IH. by apply Inv_step.
Qed.

Lemma run_cons ev evs n : run (ev :: evs) n = run evs (step n ev).
Proof. done. Qed.

Lemma run_app evs1 evs2 n : run (evs1 ++ evs2) n = run evs2 (run evs1 n).
Proof. unfold run. by rewrite foldl_app. Qed.

(** The close flag and the stop flag are never reset. *)
Lemma pipeClosed_step n ev : pipeClosed n = true → pipeClosed (step n ev) = true.
Proof.
  intros Hc. destruct ev; cbn [step]; try done.
  - unfold submit. by rewrite Hc.
  - unfold takeProposal. destruct (ProposeC n); [done|]. by rewrite Hc.
  - unfold ready. destruct (unstable n); [done|].
    by destruct (stopped n || awaitingApply n).
  - unfold readyConfChange. destruct ccs; [done|]. by destruct (_ || _).
  - unfold triggerSnapshot. by destruct (_ && _).
  - unfold stop. by destruct (_ && _).
Qed.

Lemma pipeClosed_run evs n : pipeClosed n = true → pipeClosed (run evs n) = true.
Proof.
  revert n. induction evs as [|ev evs IH]; intros n Hc; [done|].
  cbn. apply IH. by apply pipeClosed_step.
Qed.

(** Once stopped, the node stays stopped and delivers nothing more. *)
Lemma stopped_step n ev :
  stopped n = true →
  stopped (step n ev) = true ∧ commitC (step n ev) = alter close_handle
    (match ev with ApplyDone i => i | _ => length (commitC n) end) (commitC n).
Proof.
  intros Hs.
  assert (Hid : alter close_handle (length (commitC n)) (commitC n) = commitC n).
  { apply list_eq. intros j. rewrite list_lookup_alter.
    case_decide; [|done]. subst. by rewrite lookup_ge_None_2. }
  destruct ev; cbn [step]; rewrite ?Hid; try done.
  - unfold submit. destruct (pipeClosed n); [done|].
    by destruct (length (ProposeC n) <? pipeCap n).
  - unfold takeProposal. destruct (ProposeC n); [done|].
    by rewrite Hs, orb_true_r.
  - unfold ready. destruct (unstable n); [done|]. by rewrite Hs.
  - unfold readyConfChange. destruct ccs; [done|]. by rewrite Hs.
  - unfold triggerSnapshot. by rewrite Hs, andb_false_r.
  - unfold stop. by rewrite Hs, andb_false_r.
Qed.

Lemma stopped_run evs n :
  stopped n = true →
  stopped (run evs n) = true ∧ delivered (run evs n) = delivered n.
Proof.
  revert n. induction evs as [|ev evs IH]; intros n Hs; [done|].
  destruct (stopped_step n ev Hs) as [Hs' Hc]. rewrite run_cons.
  destruct (IH _ Hs') as [-> ->]. split; [done|].
  unfold delivered. rewrite Hc. by apply concat_fmap_alter.
Qed.

(** C5. Closing the Proposal Pipe any number of times is closing it once;
    and whatever happens after a close, a submission is ignored: it is
    neither sent into the conduit, where the loop could accept it, nor left
    waiting for a slot, and the node is exactly as it was. *)
Theorem Close_idempotent_submit_ignored (n : RaftNode) (k : nat)
    (evs : list Event) (p : string) :
  Nat.iter (S k) Close n = Close n ∧
  submit p (run evs (Close n)) = (Ignored, run evs (Close n)) ∧
  step (run evs (Close n)) (Submit p) = run evs (Close n).
Proof.
  assert (Hsub : submit p (run evs (Close n)) = (Ignored, run evs (Close n))).
  { unfold submit. by rewrite pipeClosed_run. }
  split; [|split; [done|]].
  - induction k as [|k IH]; [done|].
    change (Nat.iter (S (S k)) Close n) with (Close (Nat.iter (S k) Close n)).
    by rewrite IH.
  - cbn [step]. by rewrite Hsub.
Qed.

Lemma idle_closed_step n ev : idle_closed n → idle_closed (step n ev).
Proof.
  intros (Hc & Hq & Hu & Hb). destruct ev; cbn [step].
  - unfold submit. by rewrite Hc.
  - done.
  - unfold idle_closed, applyDone. cbn. by rewrite Hb.
  - unfold takeProposal. by rewrite Hq.
  - unfold ready. by rewrite Hu.
  - unfold readyConfChange. destruct ccs; [done|]. by destruct (_ || _).
  - unfold triggerSnapshot. by destruct (_ && _).
  - unfold stop. by destruct (_ && _).
Qed.

Lemma idle_closed_run evs n : idle_closed n → idle_closed (run evs n).
Proof.
  revert n. induction evs as [|ev evs IH]; intros n Hn; [done|].
  rewrite run_cons. apply IH. by apply idle_closed_step.
Qed.

Lemma idle_closed_stop n : idle_closed n → stopped (stop n) = true.
Proof.
  intros (Hc & _ & Hu & _). unfold stop. rewrite Hc, Hu.
  by destruct (stopped n) eqn:Hs; cbn; [rewrite Hs|].
Qed.

(** C3. The pipe is closed before any proposal is submitted: whatever the
    application and the loop do next, no Commit Batch is ever delivered; the
    shutdown goes through, and from then on the completion signal has been
    notified once, with [nil], and closed once. *)
Theorem close_before_any_proposal (K R cap : nat) (evs evs' : list Event) :
  let before := run (ClosePipe :: evs) (NewRaftNode K R cap) in
  let n := run (ClosePipe :: evs ++ Stop :: evs') (NewRaftNode K R cap) in
  commitC before = [] ∧
  errorC before = (if stopped before then [None] else []) ∧
  stopped n = true ∧
  errorC n = [None] ∧ errorClosed n = 1 ∧
  commitC n = [] ∧ commitClosed n = true.
Proof.
  intros before n.
  assert (Hidle : idle_closed before).
  { subst before. rewrite run_cons. by apply idle_closed_run. }
  assert (HIb : Inv K R before) by apply Inv_run, Inv_New.
  assert (Hn : n = run evs' (stop before)).
  { subst n before. by rewrite !run_cons, run_app, run_cons. }
  assert (Hs : stopped n = true).
  { rewrite Hn. by apply stopped_run, idle_closed_stop. }
  assert (HI : Inv K R n) by apply Inv_run, Inv_New.
  assert (Hidle' : idle_closed n).
  { rewrite Hn. apply idle_closed_run. by apply (idle_closed_step _ Stop). }
  destruct Hidle as (_ & _ & _ & Hb). destruct Hidle' as (_ & _ & _ & Hb').
  destruct HI, HIb.
  repeat split; try done.
  - by rewrite inv_errorC0, Hs.
  - by rewrite inv_errorClosed0, Hs.
  - by rewrite inv_commitClosed0.
Qed.

(** The loop empties the conduit into the engine. *)
Lemma takeProposal_all n :
  pipeClosed n = false → stopped n = false →
  let n' := run (replicate (length (ProposeC n)) TakeProposal) n in
  ProposeC n' = [] ∧ submitted n' = submitted n ∧
  awaitingApply n' = awaitingApply n ∧ stopped n' = false.
Proof.
  remember (length (ProposeC n)) as k eqn:Hk. revert n Hk.
  induction k as [|k IH]; intros n Hk Hc Hs; cbn zeta.
  - cbn [replicate run foldl].
    destruct (ProposeC n) eqn:Hq; [done|discriminate].
  - cbn [replicate]. rewrite run_cons. cbn [step].
    destruct (ProposeC n) as [|p rest] eqn:Hq; [discriminate|].
    injection Hk as Hk.
    assert (Ht : ProposeC (takeProposal n) = rest ∧
                 pipeClosed (takeProposal n) = false ∧
                 stopped (takeProposal n) = false ∧
                 submitted (takeProposal n) = submitted n ∧
                 awaitingApply (takeProposal n) = awaitingApply n).
    { unfold takeProposal. by rewrite Hq, Hc, Hs. }
    destruct Ht as (Hq' & Hc' & Hs' & Ha' & Hw').
    destruct (IH (takeProposal n)) as (H1 & H2 & H3 & H4); try done.
    { by rewrite Hq'. }
    by rewrite H1, H2, H3, H4.
Qed.

(** Closing the handle of the most recent batch makes the gate passable. *)
Lemma applyDone_last_signalled n :
  applyDoneSignalled (applyDone (length (commitC n) - 1) n) = true.
Proof.
  unfold applyDoneSignalled, applyDone. cbn [commitC].
  rewrite last_lookup, length_alter, list_lookup_alter.
  replace (pred (length (commitC n))) with (length (commitC n) - 1) by lia.
  case_decide; [|done]. by destruct (commitC n !! _).
Qed.


Lemma run_settle n :
  run (settle n) n
  = ready (run (replicate (length (ProposeC n)) TakeProposal)
             (triggerSnapshot (applyDone (length (commitC n) - 1) n))).
Proof. unfold settle. by rewrite !run_app. Qed.

(** After the application's acknowledgement the loop is past the gate. *)
Lemma gate_passed n :
  let n' := triggerSnapshot (applyDone (length (commitC n) - 1) n) in
  (stopped n = false → awaitingApply n' = false) ∧
  ProposeC n' = ProposeC n ∧ pipeClosed n' = pipeClosed n ∧
  stopped n' = stopped n ∧ unstable n' = unstable n ∧
  submitted n' = submitted n ∧ accepted n' = accepted n.
Proof.
  cbn zeta. unfold triggerSnapshot. rewrite applyDone_last_signalled.
  cbn [awaitingApply stopped applyDone].
  destruct (awaitingApply n) eqn:Hw, (stopped n) eqn:Hs; cbn; by rewrite ?Hw, ?Hs.
Qed.

(** The readiness leaves the engine with nothing to report, unless the
    loop waits at the gate or has stopped. *)
Lemma ready_reports n :
  stopped n = false → awaitingApply n = false →
  unstable (ready n) = [] ∧ ProposeC (ready n) = ProposeC n ∧
  submitted (ready n) = submitted n ∧ accepted (ready n) = accepted n.
Proof.
  intros Hs Hw. unfold ready. destruct (unstable n) eqn:Hu; [by rewrite Hu|].
  by rewrite Hs, Hw.
Qed.

(** Everything the loop has accepted reaches the application. *)
Lemma flush_delivers K R n :
  Inv K R n →
  delivered (run (flush n) n) = accepted n ∧
  accepted (run (flush n) n) = accepted n.
Proof.
  intros HI. pose proof HI as [].
  change (run (flush n) n)
    with (ready (triggerSnapshot (applyDone (length (commitC n) - 1) n))).
  destruct (gate_passed n) as (Hw & Hq & Hc & Hs & Hu & Hsub & Hacc).
  set (n2 := triggerSnapshot (applyDone (length (commitC n) - 1) n)) in *.
  assert (HI2 : Inv K R n2) by by apply Inv_triggerSnapshot, Inv_applyDone.
  assert (HI3 : Inv K R (ready n2)) by by apply Inv_ready.
  assert (H3 : unstable (ready n2) = [] ∧ accepted (ready n2) = accepted n).
  { destruct (stopped n) eqn:Hst.
    - destruct (inv_stopped0 eq_refl) as [_ Hun].
      unfold ready. rewrite Hu, Hun. by rewrite Hu, Hun, Hacc.
    - destruct (ready_reports n2) as (H1 & _ & _ & H2); [done|by apply Hw|].
      by rewrite H1, H2. }
  destruct H3 as [Hu3 Ha3]. destruct HI3.
  rewrite Hu3 in inv_accepted1. cbn in inv_accepted1.
  rewrite app_nil_r in inv_accepted1. by rewrite <- inv_accepted1.
Qed.

(** While the pipe is open, everything submitted can be accepted and
    delivered. *)
Lemma settle_delivers K R n :
  Inv K R n → pipeClosed n = false →
  delivered (run (settle n) n) = submitted n ∧
  submitted (run (settle n) n) = submitted n.
Proof.
  intros HI Hc. pose proof HI as [].
  assert (Hs : stopped n = false).
  { destruct (stopped n) eqn:Hs; [|done]. destruct inv_stopped0; congruence. }
  rewrite run_settle.
  destruct (gate_passed n) as (Hw2 & Hq2 & Hc2 & Hs2 & _ & Ha2 & _).
  set (n2 := triggerSnapshot (applyDone (length (commitC n) - 1) n)) in *.
  rewrite <- Hq2. rewrite Hc in Hc2. rewrite Hs in Hs2.
  destruct (takeProposal_all n2 Hc2 Hs2) as (Hq3 & Ha3 & Hw3 & Hs3).
  set (n3 := run (replicate (length (ProposeC n2)) TakeProposal) n2) in *.
  assert (HI4 : Inv K R (ready n3)).
  { apply Inv_ready. subst n3 n2.
    apply (Inv_run K R (replicate _ TakeProposal)).
    by apply Inv_triggerSnapshot, Inv_applyDone. }
  destruct (ready_reports n3) as (Hu4 & Hq4 & Ha4 & _); [done|by rewrite Hw3, Hw2|].
  destruct HI4. rewrite Hq4, Hq3, app_nil_r in inv_submitted1.
  rewrite Hu4 in inv_accepted1. cbn in inv_accepted1.
  rewrite app_nil_r in inv_accepted1.
  rewrite <- inv_accepted1, <- inv_submitted1. by rewrite Ha4, Ha3, Ha2.
Qed.

(** C2. On a node that is the only voter of its cluster, in every state it
    reaches: the payloads delivered so far are an initial part of the
    payloads the loop has accepted from the Proposal Pipe, in the order
    they were submitted in; the delivered entries carry strictly increasing
    indices, batch after batch; the node manager and the application can
    always go on until every accepted payload has been delivered; and while
    the pipe is open the same holds of every payload submitted. *)
Theorem proposals_delivered_in_order (K R cap : nat) (evs : list Event) :
  let n := run evs (NewRaftNode K R cap) in
  delivered n `prefix_of` accepted n ∧
  accepted n `prefix_of` submitted n ∧
  StronglySorted lt (delivered_indices n) ∧
  length (delivered_indices n) = length (delivered n) ∧
  (∃ evs', delivered (run evs' n) = accepted n ∧
           accepted (run evs' n) = accepted n) ∧
  (pipeClosed n = false →
   ∃ evs', delivered (run evs' n) = submitted n ∧
           submitted (run evs' n) = submitted n).
Proof.
  intros n.
  assert (HI : Inv K R n) by apply Inv_run, Inv_New.
  pose proof HI as [].
  repeat split.
  - rewrite inv_accepted0. by apply prefix_app_r.
  - rewrite inv_submitted0. by apply prefix_app_r.
  - done.
  - unfold delivered_indices, delivered.
    induction (commitC n) as [|c l IH]; [done|].
    cbn. rewrite !length_app, IH. unfold Data. by rewrite !length_fmap.
  - exists (flush n). by apply (flush_delivers K R).
  - intros Hc. exists (settle n). by apply (settle_delivers K R).
Qed.

(** Two payloads on a pipe of one slot: foo is accepted and delivered, bar
    waits in the conduit; both can still be delivered. *)
Lemma proposals_delivered_in_order_witness :
  let n := run [Submit "foo"; TakeProposal; Submit "bar"; Ready] (NewRaftNode 4 4 1) in
  delivered n = ["foo"] ∧ submitted n = ["foo"; "bar"] ∧
  ∃ evs', delivered (run evs' n) = ["foo"; "bar"].
Proof.
  intros n.
  destruct (proposals_delivered_in_order 4 4 1
              [Submit "foo"; TakeProposal; Submit "bar"; Ready])
    as (_ & _ & _ & _ & _ & Hopen).
  destruct (Hopen eq_refl) as (evs' & Hd & _).
  split; [reflexivity|]. split; [reflexivity|]. exists evs'. exact Hd.
Defined.



(** The cluster of three peers of the tests is started with three
    configuration changes. *)
Example bootstrap_three_peers :
  bootstrap (cluster.newCluster 3).1
  = [ {| cc_Type := ConfChangeAddNode; cc_NodeID := 1;
         cc_Context := "http://127.0.0.1:10000" |};
      {| cc_Type := ConfChangeAddNode; cc_NodeID := 2;
         cc_Context := "http://127.0.0.1:10001" |};
      {| cc_Type := ConfChangeAddNode; cc_NodeID := 3;
         cc_Context := "http://127.0.0.1:10002" |} ].
Proof. reflexivity. Qed.



End NodeManager.

(** * Further properties of the handler *)

(** Every path through [ServeHTTP]: the case of the method, then what the
    body, the request URI, the parser, the node and the store answer. *)
Ltac handler_paths :=
  unfold serve, ServeHTTP;
  repeat first
    [ progress run_handler
    | progress cbn [rcReadNotify kvStore record_call record_log]
    | match goal with
      | |- context [if String.eqb ?a ?b then _ else _] =>
          destruct (String.eqb_spec a b)
      | |- context [match http.Body ?r with _ => _ end] =>
          destruct (http.Body r) eqn:?
      | |- context [match slice_from_1 ?k with _ => _ end] =>
          destruct (slice_from_1 k) eqn:?
      | |- context [match rcReadNotify ?s with _ => _ end] =>
          destruct (rcReadNotify s) eqn:?
      | |- context [match kvStore ?s !! ?k with _ => _ end] =>
          destruct (kvStore s !! k) eqn:?
      | |- context [match ?P ?id with inl _ => _ | inr _ => _ end] =>
          destruct (P id) eqn:?
      end ].

(** The record of calls and the log of an outcome, with what was there
    before split off. *)
Ltac added :=
  unfold new_calls, new_logs, made_calls;
  cbn [world resp conn_of returned
       calls logged kvStore proposed confChangeC rcID rcIsLeader rcReadNotify
       rcConfState record_call record_log enqueue_proposal enqueue_confChange];
  rewrite <- ?app_assoc; rewrite ?drop_app_length, ?drop_all; cbn [app].

Ltac methods :=
  unfold http.MethodPut, http.MethodGet, http.MethodPost, http.MethodDelete,
    http.MethodHead in *.

Section Handler_more.

Variable ParseUint : string → N + Err.

(** X3. Whatever the request and whatever the handler does with it, a
    panic included, the request body is closed, once, and that is the last
    thing the handler does. *)
Theorem body_closed_last_and_once r σ :
  let o := serve ParseUint r σ in
  calls (world (conn_of o)) = calls σ ++ new_calls σ o ∧
  last (new_calls σ o) = Some CallBodyClose ∧
  length (List.filter is_BodyClose (new_calls σ o)) = 1.
Proof.
  cbn zeta. handler_paths; added; by repeat split.
Qed.

(** What one request hands to the store and to the node. *)
Lemma serve_outputs r σ :
  let σ' := world (conn_of (serve ParseUint r σ)) in
  proposed σ' = proposed σ ++ option_list (proposal_of r) ∧
  confChangeC σ' = confChangeC σ ++ option_list (conf_change_of ParseUint r) ∧
  kvStore σ' = kvStore σ ∧ rcID σ' = rcID σ ∧ rcIsLeader σ' = rcIsLeader σ ∧
  rcReadNotify σ' = rcReadNotify σ ∧ rcConfState σ' = rcConfState σ.
Proof.
  cbn zeta. unfold proposal_of, conf_change_of.
  handler_paths; added; methods; try congruence;
    rewrite ?app_nil_r; by repeat split.
Qed.

(** X5. A request changes nothing but the two queues towards the node, and
    those only by appending: the pending proposals grow by the pair of a PUT
    whose body was read and by nothing else; the configuration-change
    channel grows by the change of a POST or DELETE whose node ID parsed
    and by nothing else.  The store's map, the node's identity, leadership
    and applied membership are never written. *)
Theorem request_only_appends r σ :
  let σ' := world (conn_of (serve ParseUint r σ)) in
  proposed σ' = proposed σ ++ option_list (proposal_of r) ∧
  confChangeC σ' = confChangeC σ ++ option_list (conf_change_of ParseUint r) ∧
  (http.Method r ≠ http.MethodPut → proposed σ' = proposed σ) ∧
  (http.Method r ≠ http.MethodPost → http.Method r ≠ http.MethodDelete →
   confChangeC σ' = confChangeC σ) ∧
  kvStore σ' = kvStore σ ∧ rcID σ' = rcID σ ∧ rcIsLeader σ' = rcIsLeader σ ∧
  rcConfState σ' = rcConfState σ.
Proof.
  destruct (serve_outputs r σ) as (Hp & Hc & Hkv & Hid & Hl & _ & Hm).
  cbn zeta in *. repeat split; try done.
  - intros Hput. rewrite Hp. unfold proposal_of.
    destruct (String.eqb_spec (http.Method r) http.MethodPut); [done|].
    by rewrite app_nil_r.
  - intros Hpost Hdel. rewrite Hc. unfold conf_change_of.
    destruct (String.eqb_spec (http.Method r) http.MethodPost); [done|].
    destruct (String.eqb_spec (http.Method r) http.MethodDelete); [done|].
    by rewrite app_nil_r.
Qed.

(** X10. Over any sequence of requests and commits, the
    configuration-change channel receives exactly the changes of the POST
    and DELETE requests whose node ID parsed (and, for POST, whose body was
    read), one each, in the order the requests were served. *)
Theorem conf_changes_in_request_order steps σ :
  confChangeC (world_run ParseUint steps σ)
  = confChangeC σ ++ omap (step_conf_change ParseUint) steps.
Proof.
  revert σ. induction steps as [|s steps IH]; intros σ.
  - by rewrite app_nil_r.
  - change (world_run ParseUint (s :: steps) σ)
      with (world_run ParseUint steps (world_step ParseUint σ s)).
    rewrite IH. destruct s as [r e|]; cbn [world_step omap step_conf_change].
    + destruct (serve_outputs r (set_readNotify e σ)) as (_ & Hc & _).
      cbn zeta in Hc. rewrite Hc. cbn [confChangeC set_readNotify].
      rewrite <- app_assoc. f_equal. cbn.
      by destruct (conf_change_of ParseUint r).
    + unfold commit_one. by destruct (proposed σ) as [|[k v] rest].
Qed.

(** X1. A request whose method is none of PUT, GET, POST, DELETE and HEAD
    is answered 405 with the text "Method not allowed"; the Allow header
    names PUT, GET, POST and DELETE, in this order, and not HEAD.  Nothing
    is read, proposed, sent or logged. *)
Theorem other_methods_not_allowed r σ :
  http.Method r ∉ handled_methods →
  let o := serve ParseUint r σ in
  returned o = true ∧
  http.status (resp (conn_of o)) = Some http.StatusMethodNotAllowed ∧
  http.Header_Values "Allow" (http.header (resp (conn_of o)))
    = ["PUT"; "GET"; "POST"; "DELETE"] ∧
  http.body (resp (conn_of o)) = "Method not allowed" +:+ newline ∧
  new_calls σ o = [CallBodyClose] ∧ new_logs σ o = [] ∧
  same_state σ (world (conn_of o)).
Proof.
  intros Hm. cbn zeta.
  unfold serve, ServeHTTP.
  destruct (String.eqb_spec (http.Method r) http.MethodPut) as [e|_];
    [exfalso; apply Hm; rewrite e; unfold handled_methods; repeat constructor|].
  destruct (String.eqb_spec (http.Method r) http.MethodGet) as [e|_];
    [exfalso; apply Hm; rewrite e; unfold handled_methods; repeat constructor|].
  destruct (String.eqb_spec (http.Method r) http.MethodPost) as [e|_];
    [exfalso; apply Hm; rewrite e; unfold handled_methods; repeat constructor|].
  destruct (String.eqb_spec (http.Method r) http.MethodDelete) as [e|_];
    [exfalso; apply Hm; rewrite e; unfold handled_methods; repeat constructor|].
  destruct (String.eqb_spec (http.Method r) http.MethodHead) as [e|_];
    [exfalso; apply Hm; rewrite e; unfold handled_methods; repeat constructor|].
  run_handler. added. by repeat split.
Qed.

(** X2. A PUT whose body is read hands the store one proposal, the
    request URI as key and the body as value, empty or not, and replies 204
    with no body at once: the store's map is as it was, nothing is sent to
    the node and nothing is logged. *)
Theorem put_proposes_and_replies r σ v :
  http.Method r = http.MethodPut → http.Body r = inl v →
  let o := serve ParseUint r σ in
  returned o = true ∧
  http.status (resp (conn_of o)) = Some http.StatusNoContent ∧
  http.body (resp (conn_of o)) = "" ∧
  new_calls σ o
    = [CallReadAll; CallPropose (http.RequestURI r) v; CallBodyClose] ∧
  proposed (world (conn_of o)) = proposed σ ++ [(http.RequestURI r, v)] ∧
  kvStore (world (conn_of o)) = kvStore σ ∧
  confChangeC (world (conn_of o)) = confChangeC σ ∧
  new_logs σ o = [].
Proof.
  intros Hm Hb. cbn zeta. unfold serve. rewrite ServeHTTP_Put by done.
  run_handler. rewrite Hb. run_handler. added. by repeat split.
Qed.

(** X7. A POST whose body cannot be read is answered 400 before the
    request URI is looked at: whatever the URI, the empty one included,
    the handler returns, sends nothing and logs the error of the read. *)
Theorem post_unreadable_body r σ err :
  http.Method r = http.MethodPost → http.Body r = inr err →
  let o := serve ParseUint r σ in
  returned o = true ∧
  http.status (resp (conn_of o)) = Some http.StatusBadRequest ∧
  http.body (resp (conn_of o)) = "Failed on POST" +:+ newline ∧
  new_calls σ o = [CallReadAll; CallBodyClose] ∧
  new_logs σ o = ["Failed to read on POST (" +:+ err +:+ ")" +:+ newline] ∧
  same_state σ (world (conn_of o)).
Proof.
  intros Hm Hb. cbn zeta. unfold serve. rewrite ServeHTTP_Post by done.
  run_handler. rewrite Hb. run_handler. added. by repeat split.
Qed.

(** X4. The handler panics exactly on an empty request URI in a DELETE, or
    in a POST whose body was read: the node ID is sliced off the URI from
    index 1 on.  In that case no reply is written and nothing is sent. *)
Theorem panics_on_empty_uri r σ :
  let o := serve ParseUint r σ in
  (returned o = false ↔
   http.RequestURI r = "" ∧
   (http.Method r = http.MethodDelete ∨
    (http.Method r = http.MethodPost ∧ ∃ url, http.Body r = inl url))) ∧
  (returned o = false →
   http.status (resp (conn_of o)) = None ∧ http.body (resp (conn_of o)) = "" ∧
   same_state σ (world (conn_of o))).
Proof.
  cbn zeta. handler_paths; added; methods;
    (split; [split|]; [intros Hr|intros (Huri & [Hm|(Hm & url & Hb)])|intros Hr]);
    try discriminate; try congruence; try (by repeat split);
    try (by destruct (http.RequestURI r); [|discriminate];
         split; [|eauto 10]).
  all: destruct (http.RequestURI r); discriminate.
Qed.

(** X6. The handler replies once or not at all: when it returns, a status
    has been written and it is one of the codes of the request's method
    (PUT, POST, DELETE: 204 or 400; GET: 200, 400 or 404; HEAD: 200; any
    other method: 405); when it panics, none has. *)
Theorem reply_code_of_method r σ :
  let o := serve ParseUint r σ in
  match http.status (resp (conn_of o)) with
  | Some code => returned o = true ∧ code ∈ reply_codes (http.Method r)
  | None => returned o = false
  end.
Proof.
  cbn zeta. unfold reply_codes.
  handler_paths; cbn; try done; (split; [done|]); repeat constructor.
Qed.

(** X8. The handler logs exactly when it replies 400, and then one line. *)
Theorem logs_bad_requests_only r σ :
  let o := serve ParseUint r σ in
  logged (world (conn_of o)) = logged σ ++ new_logs σ o ∧
  length (new_logs σ o)
  = if bool_decide (http.status (resp (conn_of o)) = Some http.StatusBadRequest)
    then 1%nat else 0%nat.
Proof.
  cbn zeta. handler_paths; added; rewrite ?app_nil_r; by split.
Qed.

(** X14. The handler drops the first character of the request URI without
    looking at it: a POST or DELETE whose URI is any character followed by a
    node ID that parses sends the change for that ID and replies 204,
    whether the character is a slash or not. *)
Theorem first_uri_character_ignored r σ c id nodeID :
  http.RequestURI r = String c id → ParseUint id = inl nodeID →
  let o := serve ParseUint r σ in
  (http.Method r = http.MethodDelete →
   http.status (resp (conn_of o)) = Some http.StatusNoContent ∧
   confChangeC (world (conn_of o))
   = confChangeC σ ++ [ {| cc_Type := ConfChangeRemoveNode; cc_NodeID := nodeID;
                           cc_Context := "" |} ]) ∧
  (∀ url, http.Method r = http.MethodPost → http.Body r = inl url →
   http.status (resp (conn_of o)) = Some http.StatusNoContent ∧
   confChangeC (world (conn_of o))
   = confChangeC σ ++ [ {| cc_Type := ConfChangeAddNode; cc_NodeID := nodeID;
                           cc_Context := url |} ]).
Proof.
  intros Huri Hid. cbn zeta. unfold serve. split.
  - intros Hm. rewrite ServeHTTP_Delete by done. run_handler.
    rewrite Huri. cbn [slice_from_1]. rewrite Hid. run_handler. added. by split.
  - intros url Hm Hb. rewrite ServeHTTP_Post by done. run_handler.
    rewrite Hb, Huri. cbn [slice_from_1]. rewrite Hid. run_handler. added.
    by split.
Qed.

(** The reply to a GET is a function of the node's read confirmation and
    of the store's entry for the key; the reply to a HEAD, of the node's ID
    and leadership. *)
Lemma get_reply r σ :
  http.Method r = http.MethodGet →
  resp (conn_of (serve ParseUint r σ))
  = match rcReadNotify σ with
    | Some _ => http.Error "Failed on GET" http.StatusBadRequest http.newResponse
    | None =>
        match kvStore σ !! http.RequestURI r with
        | Some v => http.Write v http.newResponse
        | None => http.Error "Failed to GET" http.StatusNotFound http.newResponse
        end
    end.
Proof.
  intros Hm. unfold serve. rewrite ServeHTTP_Get by done. run_handler.
  cbn [rcReadNotify record_call]. destruct (rcReadNotify σ); run_handler; [done|].
  cbn [kvStore record_call]. by destruct (kvStore σ !! http.RequestURI r).
Qed.

Lemma head_reply r σ :
  http.Method r = http.MethodHead →
  resp (conn_of (serve ParseUint r σ))
  = http.WriteHeader http.StatusOK
      (http.with_header (http.Header_Add "X-IS-Leader" (Sprintf_bool (rcIsLeader σ)))
         (http.with_header (http.Header_Add "X-ID" (FormatUint (rcID σ)))
            http.newResponse)).
Proof.
  intros Hm. unfold serve. rewrite ServeHTTP_Head by done. by run_handler.
Qed.

(** X9. GET and HEAD are safe: they leave the store, the queues and the
    node as they are, and the same request served again gets the same
    reply. *)
Theorem get_and_head_are_safe r σ :
  http.Method r = http.MethodGet ∨ http.Method r = http.MethodHead →
  let σ' := world (conn_of (serve ParseUint r σ)) in
  same_state σ σ' ∧
  resp (conn_of (serve ParseUint r σ')) = resp (conn_of (serve ParseUint r σ)).
Proof.
  intros Hm. cbn zeta.
  destruct (serve_outputs r σ) as (Hp & Hc & Hkv & Hid & Hl & Hr & Hcs).
  cbn zeta in *.
  assert (Hnone : proposal_of r = None ∧ conf_change_of ParseUint r = None).
  { unfold proposal_of, conf_change_of. methods.
    destruct Hm as [-> | ->]; by cbn. }
  destruct Hnone as [Hp' Hc']. rewrite Hp', Hc' in *. cbn in Hp, Hc.
  rewrite app_nil_r in Hp, Hc.
  split; [by repeat split|].
  destruct Hm as [Hm|Hm].
  - rewrite !get_reply by done. by rewrite Hr, Hkv.
  - rewrite !head_reply by done. by rewrite Hl, Hid.
Qed.

End Handler_more.

(** ** The further properties on concrete requests *)

(** A PATCH. *)
Lemma other_methods_not_allowed_witness :
  let r := {| http.Method := "PATCH"; http.RequestURI := "/k"; http.Body := inl "v" |} in
  let o := serve strconv.ParseUint r (newWorld 1 true) in
  http.status (resp (conn_of o)) = Some 405 ∧
  http.Header_Values "Allow" (http.header (resp (conn_of o)))
    = ["PUT"; "GET"; "POST"; "DELETE"].
Proof.
  intros r o.
  assert (Hm : http.Method r ∉ handled_methods).
  { intros Hin. unfold handled_methods in Hin.
    repeat (apply elem_of_cons in Hin as [Hin|Hin]; [discriminate|]).
    by apply elem_of_nil in Hin. }
  destruct (other_methods_not_allowed strconv.ParseUint r (newWorld 1 true) Hm)
    as (_ & Hs & Ha & _).
  exact (conj Hs Ha).
Defined.

(** The PUT of [TestPutAndGetKeyValue]. *)
Lemma put_proposes_and_replies_witness :
  let r := {| http.Method := "PUT"; http.RequestURI := "/test-key";
              http.Body := inl "test-value" |} in
  let o := serve strconv.ParseUint r (newWorld 1 true) in
  http.status (resp (conn_of o)) = Some 204 ∧
  proposed (world (conn_of o)) = [("/test-key", "test-value")] ∧
  kvStore (world (conn_of o)) = ∅.
Proof.
  intros r o.
  destruct (put_proposes_and_replies strconv.ParseUint r (newWorld 1 true)
              "test-value" eq_refl eq_refl) as (_ & Hs & _ & _ & Hp & Hkv & _).
  exact (conj Hs (conj Hp Hkv)).
Defined.

(** A POST with no request URI and a body that breaks off. *)
Lemma post_unreadable_body_witness :
  let r := {| http.Method := "POST"; http.RequestURI := "";
              http.Body := inr "unexpected EOF" |} in
  let o := serve strconv.ParseUint r (newWorld 1 true) in
  returned o = true ∧ http.status (resp (conn_of o)) = Some 400 ∧
  confChangeC (world (conn_of o)) = [].
Proof.
  intros r o.
  destruct (post_unreadable_body strconv.ParseUint r (newWorld 1 true)
              "unexpected EOF" eq_refl eq_refl) as (Hr & Hs & _ & _ & _ & Hst).
  destruct Hst as (_ & _ & Hc & _).
  exact (conj Hr (conj Hs Hc)).
Defined.

(** A GET for a key that is set. *)
Lemma get_and_head_are_safe_witness :
  let r := {| http.Method := "GET"; http.RequestURI := "/k"; http.Body := inl "" |} in
  let σ := world_run strconv.ParseUint
             [Serve {| http.Method := "PUT"; http.RequestURI := "/k";
                       http.Body := inl "v" |} None; Commit] (newWorld 1 true) in
  let σ' := world (conn_of (serve strconv.ParseUint r σ)) in
  http.body (resp (conn_of (serve strconv.ParseUint r σ))) = "v" ∧
  resp (conn_of (serve strconv.ParseUint r σ'))
  = resp (conn_of (serve strconv.ParseUint r σ)).
Proof.
  intros r σ σ'.
  destruct (get_and_head_are_safe strconv.ParseUint r σ (or_introl eq_refl))
    as [_ Hsame].
  split; [reflexivity|exact Hsame].
Defined.

(** * Properties of the test cluster *)

Section Cluster.

#[local] Open Scope nat_scope.

(** Decimal printing tells numbers apart. *)
Lemma FormatUint_inj (a b : N) : FormatUint a = FormatUint b → a = b.
Proof.
  unfold FormatUint. intros H.
  assert (Hnn : ∀ n, N.to_uint n ≠ Decimal.Nil).
  { intros [|p]; [discriminate|]. apply DecimalPos.Unsigned.to_uint_nonnil. }
  apply DecimalN.Unsigned.to_uint_inj.
  assert (Hs : Some (N.to_uint a) = Some (N.to_uint b)).
  { rewrite <- (NilZero.usu (N.to_uint a)), <- (NilZero.usu (N.to_uint b)) by done.
    by rewrite H. }
  by injection Hs.
Qed.

Lemma string_app_inv_head (s a b : string) : s +:+ a = s +:+ b → a = b.
Proof.
  induction s as [|c s IH]; cbn; [done|]. intros H. injection H as H. by apply IH.
Qed.

Lemma peerURL_inj (i j : nat) : cluster.peerURL i = cluster.peerURL j → i = j.
Proof.
  unfold cluster.peerURL. intros H. apply string_app_inv_head in H.
  apply FormatUint_inj in H. lia.
Qed.

Lemma startNodes_spec peers i count :
  cluster.started (cluster.startNodes peers i count)
    = (λ j, (j + 1, peers, false)) <$> seq i count ∧
  cluster.removed (cluster.startNodes peers i count) = cluster.dirs i count.
Proof.
  revert i. induction count as [|count IH]; intros i; [done|].
  destruct (IH (S i)) as [Hs Hr]. unfold cluster.dirs in *. cbn.
  unfold cluster.started, cluster.removed in *. by rewrite Hs, Hr.
Qed.

Lemma closeNodes_spec errorC i err :
  (cluster.closeNodes errorC i err).2
    = from_option Some err (last (omap id errorC)) ∧
  cluster.closed_pipes (cluster.closeNodes errorC i err).1 = seq i (length errorC) ∧
  cluster.removed (cluster.closeNodes errorC i err).1
    = cluster.dirs i (length errorC).
Proof.
  revert i err. induction errorC as [|erri rest IH]; intros i err; [done|].
  cbn [cluster.closeNodes].
  set (err' := match erri with Some e => Some e | None => err end).
  destruct (IH (S i) err') as (Hres & Hp & Hr).
  destruct (cluster.closeNodes rest (S i) err') as [effs res]. cbn [fst snd] in *.
  split; [|split].
  - rewrite Hres. subst err'. destruct erri as [e|]; cbn; [|done].
    rewrite last_cons. by destruct (last (omap id rest)).
  - unfold cluster.closed_pipes in *. cbn. by rewrite Hp.
  - unfold cluster.removed, cluster.dirs in *. cbn. by rewrite Hr.
Qed.

Lemma startNodes_effects peers i count :
  cluster.startNodes peers i count
  = concat ((λ j, [cluster.RemoveAll ("metcd-" +:+ FormatUint (N.of_nat (j + 1)));
                   cluster.RemoveAll
                     ("metcd-" +:+ FormatUint (N.of_nat (j + 1)) +:+ "-snap");
                   cluster.NewRaftNode (j + 1) peers false]) <$> seq i count).
Proof.
  revert i. induction count as [|count IH]; intros i; [done|].
  cbn [cluster.startNodes seq fmap list_fmap concat]. by rewrite IH.
Qed.

(** X11. [newCluster n] makes [n] peer addresses, pairwise different, the
    [i]-th on port [10000+i].  Then it goes through the nodes 1 to [n], in
    this order, and does three things for each, and nothing else: it
    removes the node's data directory, removes its snapshot directory, and
    only then starts the node, with its ID, on the whole list of peers and
    not joining.  So the nodes started are those with the IDs 1 to [n], and
    the directories removed are the two of every node. *)
Theorem newCluster_starts_n_nodes (n : nat) :
  let peers := (cluster.newCluster n).1 in
  let effs := (cluster.newCluster n).2 in
  length peers = n ∧
  (∀ i, i < n → peers !! i = Some (cluster.peerURL i)) ∧
  NoDup peers ∧
  effs = concat ((λ i, [cluster.RemoveAll ("metcd-" +:+ FormatUint (N.of_nat (i + 1)));
                        cluster.RemoveAll
                          ("metcd-" +:+ FormatUint (N.of_nat (i + 1)) +:+ "-snap");
                        cluster.NewRaftNode (i + 1) peers false]) <$> seq 0 n) ∧
  cluster.started effs = (λ j, (j + 1, peers, false)) <$> seq 0 n ∧
  cluster.removed effs = cluster.dirs 0 n.
Proof.
  cbn zeta. unfold cluster.newCluster. cbn [fst snd].
  assert (Hlen : length (cluster.newPeers n) = n).
  { unfold cluster.newPeers. by rewrite length_fmap, length_seq. }
  destruct (startNodes_spec (cluster.newPeers n) 0 (length (cluster.newPeers n)))
    as [Hs Hr].
  rewrite Hlen in Hs, Hr. repeat split; try done.
  - intros i Hi. unfold cluster.newPeers.
    by rewrite list_lookup_fmap, lookup_seq_lt.
  - unfold cluster.newPeers. apply NoDup_fmap_2_strong; [|apply NoDup_seq].
    intros i j _ _. apply peerURL_inj.
  - by rewrite startNodes_effects, Hlen.
  - by rewrite Hlen.
  - by rewrite Hlen.
Qed.

(** X12. [cluster.Close] goes through all the nodes whatever they report:
    the pipe of every node is closed, once and in order, and the
    directories removed are those [newCluster] had cleared for as many
    nodes.  The result is the error of the last node that reported one,
    and [nil] exactly when every node reported [nil]. *)
Theorem Close_closes_all_and_reports_last (errorC : list (option Err)) :
  let effs := (cluster.Close errorC).1 in
  let err := (cluster.Close errorC).2 in
  err = last (omap id errorC) ∧
  (err = None ↔ ∀ e, e ∈ errorC → e = None) ∧
  cluster.closed_pipes effs = seq 0 (length errorC) ∧
  cluster.removed effs = cluster.removed (cluster.newCluster (length errorC)).2.
Proof.
  cbn zeta. unfold cluster.Close.
  destruct (closeNodes_spec errorC 0 None) as (Hres & Hp & Hr).
  assert (Herr : (cluster.closeNodes errorC 0 None).2 = last (omap id errorC)).
  { rewrite Hres. by destruct (last (omap id errorC)). }
  split; [done|]. split; [|split; [done|]].
  - rewrite Herr. rewrite last_None. split.
    + intros Hnil e He. destruct e as [e|]; [|done].
      assert (Hin : e ∈ omap id errorC) by (apply list_elem_of_omap; eauto).
      rewrite Hnil in Hin. by apply elem_of_nil in Hin.
    + intros Hall. destruct (omap id errorC) as [|e l] eqn:Ho; [done|].
      assert (Hin : e ∈ omap id errorC) by (rewrite Ho; left).
      apply list_elem_of_omap in Hin as (x & Hx & Hsome).
      cbn in Hsome. subst x. by specialize (Hall _ Hx).
  - rewrite Hr. unfold cluster.newCluster. cbn [snd].
    assert (Hlen : length (cluster.newPeers (length errorC)) = length errorC).
    { unfold cluster.newPeers. by rewrite length_fmap, length_seq. }
    destruct (startNodes_spec (cluster.newPeers (length errorC)) 0
                (length (cluster.newPeers (length errorC)))) as [_ Hr'].
    by rewrite Hr', Hlen.
Qed.

End Cluster.

(** * Node IDs in and out of the handler *)

Section NodeID.

#[local] Open Scope N_scope.

Lemma decimal_value_ge d acc : acc ≤ decimal_value d acc.
Proof.
  revert acc. induction d; intros acc; cbn [decimal_value]; [lia|..];
    match goal with
    | |- _ ≤ decimal_value _ ?a => specialize (IHd a); lia
    end.
Qed.

Lemma of_uint_acc_value d acc :
  N.pos (Pos.of_uint_acc d acc) = decimal_value d (N.pos acc).
Proof.
  revert acc. induction d; intros acc; cbn [Pos.of_uint_acc decimal_value];
    [done|..]; rewrite IHd; f_equal; lia.
Qed.

Lemma of_uint_value d : N.of_uint d = decimal_value d 0.
Proof.
  unfold N.of_uint. induction d; cbn [Pos.of_uint decimal_value]; [done|done|..];
    by rewrite of_uint_acc_value.
Qed.

(** One turn of the loop of [ParseUint] on a decimal digit. *)
Lemma digits_loop_digit (k n : N) rest u :
  k < 10 → n * 10 + k < 2 ^ 64 →
  strconv.digits_loop 10 (String (ascii_of_N (48 + k)) rest) n u
  = strconv.digits_loop 10 rest (n * 10 + k) u.
Proof.
  intros Hk Hn.
  assert (Hc : Ascii.eqb (ascii_of_N (48 + k)) "_" = false ∧
               (strconv.code "0" <=? strconv.code (ascii_of_N (48 + k)))
               && (strconv.code (ascii_of_N (48 + k)) <=? strconv.code "9") = true ∧
               strconv.code (ascii_of_N (48 + k)) - strconv.code "0" = k).
  { assert (Hcases : k = 0 ∨ k = 1 ∨ k = 2 ∨ k = 3 ∨ k = 4 ∨ k = 5 ∨ k = 6 ∨
                     k = 7 ∨ k = 8 ∨ k = 9) by lia.
    repeat destruct Hcases as [->|Hcases]; try subst k; by vm_compute. }
  destruct Hc as (Hc1 & Hc2 & Hc3).
  cbn [strconv.digits_loop]. rewrite Hc1, Hc2, Hc3.
  assert (Hbase : (10 <=? k) = false) by (apply N.leb_gt; lia).
  assert (Hcut : (strconv.maxUint64 / 10 + 1 <=? n) = false).
  { apply N.leb_gt. change (strconv.maxUint64 / 10 + 1) with 1844674407370955162.
    change (2 ^ 64) with 18446744073709551616 in Hn. lia. }
  rewrite Hbase, Hcut. cbv zeta.
  rewrite (N.mod_small (n * 10 + k)) by done.
  assert (Hlow : (n * 10 + k <? n * 10) = false) by (apply N.ltb_ge; lia).
  assert (Hhigh : (strconv.maxUint64 <? n * 10 + k) = false).
  { apply N.ltb_ge. unfold strconv.maxUint64. lia. }
  by rewrite Hlow, Hhigh.
Qed.

Lemma digits_loop_decimal d acc :
  decimal_value d acc < 2 ^ 64 →
  strconv.digits_loop 10 (NilEmpty.string_of_uint d) acc false
  = inl (decimal_value d acc, false).
Proof.
  revert acc. induction d; intros acc Hlt;
    cbn [NilEmpty.string_of_uint decimal_value] in *; [done|..];
    match goal with
    | H : decimal_value _ (_ * 10 + ?k) < _ |- _ =>
        pose proof (decimal_value_ge d (acc * 10 + k));
        rewrite <- IHd by done;
        apply (digits_loop_digit k); lia
    end.
Qed.

(** Without a leading zero no base prefix is seen. *)
Lemma split_prefix_decimal c rest :
  c ≠ "0"%char → strconv.split_prefix (String c rest) = (10, String c rest).
Proof.
  intros Hc. destruct c as [[] [] [] [] [] [] [] []]; try reflexivity. congruence.
Qed.

Lemma nzhead_no_zero d d' : Decimal.nzhead d ≠ Decimal.D0 d'.
Proof. induction d; cbn; congruence. Qed.

Lemma to_uint_no_leading_zero p d : Pos.to_uint p ≠ Decimal.D0 d.
Proof.
  intros H.
  assert (Hn : Decimal.unorm (Pos.to_uint p) = Pos.to_uint p).
  { rewrite <- (DecimalPos.Unsigned.to_of (Pos.to_uint p)).
    by rewrite DecimalPos.Unsigned.of_to. }
  unfold Decimal.unorm in Hn.
  destruct (Decimal.nzhead (Pos.to_uint p)) eqn:Hz;
    [ apply (DecimalPos.Unsigned.to_uint_nonzero p); by rewrite <- Hn
    | by destruct (nzhead_no_zero (Pos.to_uint p) u)
    | rewrite H in Hn; discriminate .. ].
Qed.

(** What [FormatUint] prints, [ParseUint] reads back, in the range of
    [uint64]. *)
Lemma ParseUint_FormatUint (n : N) :
  n < 2 ^ 64 → strconv.ParseUint (FormatUint n) = inl n.
Proof.
  intros Hn. destruct n as [|p]; [reflexivity|].
  unfold FormatUint. cbn [N.to_uint].
  assert (Hval : decimal_value (Pos.to_uint p) 0 = N.pos p).
  { rewrite <- of_uint_value. apply DecimalPos.Unsigned.of_to. }
  pose proof (to_uint_no_leading_zero p) as Hlead.
  pose proof (digits_loop_decimal (Pos.to_uint p) 0) as Hloop.
  rewrite Hval in Hloop. specialize (Hloop Hn).
  destruct (Pos.to_uint p) as [|d|d|d|d|d|d|d|d|d|d] eqn:Hd;
    [by destruct (DecimalPos.Unsigned.to_uint_nonnil p)
    |by destruct (Hlead d)|..];
    cbn [NilZero.string_of_uint NilEmpty.string_of_uint] in *;
    unfold strconv.ParseUint;
    rewrite split_prefix_decimal by discriminate;
    by rewrite Hloop.
Qed.

(** X13. The node ID that a HEAD reports under X-ID, put after a slash
    as the request URI of a DELETE, is read back as the same ID: the
    handler sends a remove-node change for the reporting node itself and
    replies 204.  (The decimal form has no leading zero, so the base
    inferred from the prefix is 10.) *)
Theorem reported_id_addresses_the_node σ head del id :
  http.Method head = http.MethodHead → http.Method del = http.MethodDelete →
  rcID σ < 2 ^ 64 →
  let o := serve strconv.ParseUint head σ in
  http.Header_Values "X-ID" (http.header (resp (conn_of o))) = [id] →
  http.RequestURI del = String "/" id →
  let o' := serve strconv.ParseUint del (world (conn_of o)) in
  returned o' = true ∧
  http.status (resp (conn_of o')) = Some http.StatusNoContent ∧
  confChangeC (world (conn_of o'))
  = confChangeC σ ++ [ {| cc_Type := ConfChangeRemoveNode; cc_NodeID := rcID σ;
                          cc_Context := "" |} ].
Proof.
  intros Hhead Hdel Hid o Hx Huri o'. subst o o'.
  rewrite head_reply in Hx by done.
  cbn [http.WriteHeader http.with_header http.newResponse http.status http.header]
    in Hx.
  rewrite Header_Values_Add_other in Hx by (vm_compute; discriminate).
  rewrite Header_Values_Add in Hx by done.
  injection Hx as <-.
  destruct (serve_outputs strconv.ParseUint head σ) as (_ & Hc & _).
  cbn zeta in Hc.
  assert (Hnone : conf_change_of strconv.ParseUint head = None).
  { unfold conf_change_of. rewrite Hhead. by cbn. }
  rewrite Hnone in Hc. cbn in Hc. rewrite app_nil_r in Hc.
  set (σ1 := world (conn_of (serve strconv.ParseUint head σ))) in *.
  unfold serve at 1 2 3. rewrite ServeHTTP_Delete by done.
  run_handler. rewrite Huri. cbn [slice_from_1].
  rewrite ParseUint_FormatUint by done. run_handler. added.
  by rewrite Hc.
Qed.

End NodeID.

(** Node 4 asks for its ID and is then removed under it. *)
Lemma reported_id_addresses_the_node_witness :
  let σ := newWorld 4 false in
  let head := {| http.Method := "HEAD"; http.RequestURI := "/"; http.Body := inl "" |} in
  let del := {| http.Method := "DELETE"; http.RequestURI := "/4"; http.Body := inl "" |} in
  confChangeC (world (conn_of (serve strconv.ParseUint del
                                 (world (conn_of (serve strconv.ParseUint head σ))))))
  = [ {| cc_Type := ConfChangeRemoveNode; cc_NodeID := 4; cc_Context := "" |} ].
Proof.
  intros σ head del.
  assert (Hid : (rcID σ < 2 ^ 64)%N) by (vm_compute; reflexivity).
  exact (proj2 (proj2 (reported_id_addresses_the_node σ head del "4"
                         eq_refl eq_refl Hid eq_refl eq_refl))).
Defined.

(** A DELETE whose request URI is [x4]. *)
Lemma first_uri_character_ignored_witness :
  let r := {| http.Method := "DELETE"; http.RequestURI := "x4"; http.Body := inl "" |} in
  let o := serve strconv.ParseUint r (newWorld 1 true) in
  http.status (resp (conn_of o)) = Some 204 ∧
  confChangeC (world (conn_of o))
  = [ {| cc_Type := ConfChangeRemoveNode; cc_NodeID := 4; cc_Context := "" |} ].
Proof.
  intros r o.
  destruct (first_uri_character_ignored strconv.ParseUint r (newWorld 1 true)
              "x" "4" 4 eq_refl eq_refl) as [Hdel _].
  exact (Hdel eq_refl).
Defined.
